(** * collectd.py: a shallow embedding and its verified properties

    The development follows [collectd.py] top to bottom: the [struct]
    codec ([pack_numeric], [pack_string], [pack_value], [pack],
    [message_start], [messages]), the name sanitizer, the [Counter]
    accumulator, the [Connection] registry and the single-start guard of
    [start_threads].

    Conventions.
    - The interpreter is CPython 2 on a 64-bit platform, run without
      [-O], so that [assert] statements are executed.
    - Python 2 byte strings ([str]) are [string]; packets are [list byte].
    - Python floats are IEEE-754 binary64 values, here the primitive
      [float] with its primitive addition.
    - A [dict] is an association list without duplicate keys whose order
      is the iteration order of [items()].  New keys go to the end and an
      assignment to an existing key keeps its place.  CPython 2 iterates
      in hash order; statements that depend on the order say so.
    - Code that may raise returns a [result]; code that mutates an object
      threads its state explicitly, and the state is kept when an
      exception is raised.
    - Executions are sequential: the locks of [synchronized] are free
      when a method is entered. *)

From Stdlib Require Import ZArith List String Ascii Bool Lia.
From Stdlib Require Import Strings.Byte.
From Stdlib Require Import PrimFloat FloatOps SpecFloat.
Import ListNotations.

Open Scope Z_scope.

(* ===================================================================== *)
(** * Python values and exceptions                                        *)
(* ===================================================================== *)

Inductive exn : Type :=
| AssertionError
| StructError
| TypeError
| ValueError
| OverflowError
| UnicodeEncodeError.

Inductive result (A : Type) : Type :=
| Ok (a : A)
| Raise (e : exn).

Arguments Ok {A} a.
Arguments Raise {A} e.

Definition bind {A B : Type} (m : result A) (k : A -> result B) : result B :=
  match m with
  | Ok a => k a
  | Raise e => Raise e
  end.

(** The value of a result, [d] when it is an exception. *)
Definition value_or {A : Type} (d : A) (r : result A) : A :=
  match r with
  | Ok a => a
  | Raise _ => d
  end.

Notation "x <- m ;; k" := (bind m (fun x => k))
  (at level 61, m at next level, right associativity).

Fixpoint mapM {A B : Type} (f : A -> result B) (l : list A) : result (list B) :=
  match l with
  | [] => Ok []
  | a :: r => b <- f a ;; bs <- mapM f r ;; Ok (b :: bs)
  end.

(** The objects that reach the library: [None], booleans, machine
    integers ([int]), arbitrary-precision integers ([long]), floats, byte
    strings ([str]) and unicode strings, given by their code points.
    [isinstance(x, int)] holds for [int] and [bool] only. *)
Inductive pyval : Type :=
| PyNone
| PyBool (b : bool)
| PyInt (z : Z)
| PyLong (z : Z)
| PyFloat (f : float)
| PyStr (s : string)
| PyUnicode (u : list N).

(** [sys.maxint] on the 64-bit platforms the library runs on. *)
Definition maxint : Z := 2 ^ 63 - 1.

(** [float(z)]: the nearest double, ties to even. *)
Definition float_of_Z (z : Z) : float :=
  SF2Prim (binary_normalize prec emax z 0 false).

(** [isinstance(x, basestring)] *)
Definition is_basestring (x : pyval) : bool :=
  match x with
  | PyStr _ | PyUnicode _ => true
  | _ => false
  end.

(** [isinstance(x, (int, float))]; [bool] is a subclass of [int], [long]
    is not. *)
Definition is_int_or_float (x : pyval) : bool :=
  match x with
  | PyBool _ | PyInt _ | PyFloat _ => true
  | _ => false
  end.

(** [u.encode("ascii")]: the default codec refuses code points from 128
    on. *)
Fixpoint encode_ascii (u : list N) : result string :=
  match u with
  | [] => Ok EmptyString
  | cp :: r =>
      if (cp <? 128)%N
      then s <- encode_ascii r ;; Ok (String (ascii_of_N cp) s)
      else Raise UnicodeEncodeError
  end.

(** [str(x)] for the values that pass [is_basestring]: a byte string is
    itself, a unicode string is encoded with the default codec.  The
    library calls [str] behind that test only; the other values are
    given the empty string. *)
Definition py_str (x : pyval) : result string :=
  match x with
  | PyStr s => Ok s
  | PyUnicode u => encode_ascii u
  | _ => Ok EmptyString
  end.

(** Truth value, as used by [when or time.time()]. *)
Definition py_truthy (x : pyval) : bool :=
  match x with
  | PyNone => false
  | PyBool b => b
  | PyInt z | PyLong z => negb (z =? 0)
  | PyFloat f => negb (PrimFloat.eqb f 0%float)
  | PyStr s => negb (String.eqb s "")
  | PyUnicode u => negb (Nat.eqb (List.length u) 0)
  end.

Definition int_result (z : Z) : pyval :=
  if (- 2 ^ 63 <=? z) && (z <=? maxint) then PyInt z else PyLong z.

(** Conversion of a number to a C double; a [long] that rounds beyond
    the largest double raises [OverflowError]. *)
Definition to_double (x : pyval) : result float :=
  match x with
  | PyBool b => Ok (if b then 1%float else 0%float)
  | PyInt z => Ok (float_of_Z z)
  | PyLong z =>
      let f := float_of_Z z in
      if is_infinity f then Raise OverflowError else Ok f
  | PyFloat f => Ok f
  | _ => Raise TypeError
  end.

Definition int_value (x : pyval) : option Z :=
  match x with
  | PyBool b => Some (if b then 1 else 0)
  | PyInt z | PyLong z => Some z
  | _ => None
  end.

(** [a + b] on numbers: integers add exactly (overflowing [int] becomes
    [long]); as soon as one operand is a float the other is converted and
    the doubles are added. *)
Definition py_add (a b : pyval) : result pyval :=
  match int_value a, int_value b with
  | Some x, Some y => Ok (int_result (x + y))
  | _, _ =>
      match a, b with
      | PyStr _, _ | _, PyStr _ | PyUnicode _, _ | _, PyUnicode _
      | PyNone, _ | _, PyNone => Raise TypeError
      | _, _ => x <- to_double a ;; y <- to_double b ;; Ok (PyFloat (PrimFloat.add x y))
      end
  end.

(* ===================================================================== *)
(** * [struct]                                                            *)
(* ===================================================================== *)

Definition bytes : Type := list byte.

Definition byte_of_Z (z : Z) : byte :=
  byte_of_ascii (ascii_of_N (Z.to_N (z mod 256))).

(** The [n] low bytes of [z], least significant first. *)
Fixpoint le_bytes (n : nat) (z : Z) : bytes :=
  match n with
  | O => []
  | S k => byte_of_Z z :: le_bytes k (z / 256)
  end.

Definition be_bytes (n : nat) (z : Z) : bytes := rev (le_bytes n z).

(** Format [H]: unsigned 16 bits, [struct.error] outside the range. *)
Definition struct_H (z : Z) : result bytes :=
  if (0 <=? z) && (z <=? 65535) then Ok (be_bytes 2 z) else Raise StructError.

(** [int(f)]: truncation towards zero; NaN and infinities raise. *)
Definition trunc_float (f : float) : result Z :=
  match Prim2SF f with
  | S754_zero _ => Ok 0
  | S754_infinity _ => Raise OverflowError
  | S754_nan => Raise ValueError
  | S754_finite s m e =>
      let a := if 0 <=? e then Zpos m * 2 ^ e else Zpos m / 2 ^ (- e) in
      Ok (if s then - a else a)
  end.

(** Format [q]: signed 64 bits, two's complement.  A float argument is
    accepted and truncated (with a deprecation warning in Python 2). *)
Definition struct_q (x : pyval) : result bytes :=
  z <- match x with
       | PyBool b => Ok (if b then 1 else 0)
       | PyInt z | PyLong z => Ok z
       | PyFloat f => trunc_float f
       | _ => Raise StructError
       end ;;
  if (- 2 ^ 63 <=? z) && (z <? 2 ^ 63)
  then Ok (be_bytes 8 (z mod 2 ^ 64))
  else Raise StructError.

(** The 64 bits of a double.  The primitive type has one NaN; it is given
    the quiet-NaN pattern of [float("nan")]. *)
Definition double_bits (f : float) : Z :=
  let sign (s : bool) := if s then 2 ^ 63 else 0 in
  match Prim2SF f with
  | S754_zero s => sign s
  | S754_infinity s => sign s + 2047 * 2 ^ 52
  | S754_nan => 2047 * 2 ^ 52 + 2 ^ 51
  | S754_finite s m e =>
      sign s + (if Zpos m <? 2 ^ 52 then Zpos m
                else (e + 1075) * 2 ^ 52 + (Zpos m - 2 ^ 52))
  end.

(** Format [<d]: a little-endian double. *)
Definition struct_d_le (x : pyval) : result bytes :=
  match x with
  | PyStr _ | PyUnicode _ | PyNone => Raise StructError
  | _ => f <- to_double x ;; Ok (le_bytes 8 (double_bits f))
  end.

(** Format [B]: one unsigned byte. *)
Definition struct_B (z : Z) : result bytes :=
  if (0 <=? z) && (z <=? 255) then Ok [byte_of_Z z] else Raise StructError.

(** [len(b)] *)
Definition len (b : bytes) : Z := Z.of_nat (List.length b).

(* ===================================================================== *)
(** * The codec                                                           *)
(* ===================================================================== *)

Definition SEND_INTERVAL : Z := 10.
Definition MAX_PACKET_SIZE : Z := 1024.

Definition PLUGIN_TYPE : string := "gauge".

Definition TYPE_HOST : Z := 0.
Definition TYPE_TIME : Z := 1.
Definition TYPE_PLUGIN : Z := 2.
Definition TYPE_PLUGIN_INSTANCE : Z := 3.
Definition TYPE_TYPE : Z := 4.
Definition TYPE_TYPE_INSTANCE : Z := 5.
Definition TYPE_VALUES : Z := 6.
Definition TYPE_INTERVAL : Z := 7.
Definition LONG_INT_CODES : list Z := [TYPE_TIME; TYPE_INTERVAL].
Definition STRING_CODES : list Z :=
  [TYPE_HOST; TYPE_PLUGIN; TYPE_PLUGIN_INSTANCE; TYPE_TYPE; TYPE_TYPE_INSTANCE].

Definition VALUE_GAUGE : Z := 1.

(** [struct.pack("!HHq", type_code, 12, number)] *)
Definition pack_numeric (type_code : Z) (number : pyval) : result bytes :=
  t <- struct_H type_code ;;
  l <- struct_H 12 ;;
  n <- struct_q number ;;
  Ok (t ++ l ++ n).

(** [struct.pack("!HH", type_code, 5 + len(string)) + string + "\0"];
    [len] or the concatenation raise [TypeError] on [None] and on
    numbers.  For a unicode argument Python answers with a unicode
    object, which is no packet; the library hands [pack] byte strings
    only, and the model answers [TypeError] there as well. *)
Definition pack_string (type_code : Z) (str : pyval) : result bytes :=
  match str with
  | PyStr s =>
      t <- struct_H type_code ;;
      l <- struct_H (5 + Z.of_nat (String.length s)) ;;
      Ok ((t ++ l) ++ list_byte_of_string s ++ [x00])
  | _ => Raise TypeError
  end.

(** The two [elif] branches of [pack], for an integer [id].  [pack] and
    [pack_value] call each other in the source; the recursion is cut here,
    [pack_value] entering [pack] below its string test. *)
Definition pack_code (id : Z) (value : pyval) : result bytes :=
  if existsb (Z.eqb id) LONG_INT_CODES then pack_numeric id value
  else if existsb (Z.eqb id) STRING_CODES then pack_string id value
  else Raise AssertionError.

Definition pack_value (name : string) (value : pyval) : result bytes :=
  a <- pack_code TYPE_TYPE_INSTANCE (PyStr name) ;;
  b <- (t <- struct_H TYPE_VALUES ;; l <- struct_H 15 ;; n <- struct_H 1 ;;
        Ok (t ++ l ++ n)) ;;
  c <- (k <- struct_B VALUE_GAUGE ;; d <- struct_d_le value ;; Ok (k ++ d)) ;;
  Ok (List.concat [a; b; c]).

(** The first argument of [pack]: a stat name or a type code. *)
Inductive pack_id : Type :=
| Name (s : string)
| Code (c : Z).

Definition pack (id : pack_id) (value : pyval) : result bytes :=
  match id with
  | Name s => pack_value s value
  | Code c => pack_code c value
  end.

Section Codec.

(** [time.time()], read when [when] is unset or zero. *)
Variable now : float.

Definition message_start (when : pyval) (host plugin_inst plugin_name : string)
  : result bytes :=
  a <- pack (Code TYPE_HOST) (PyStr host) ;;
  b <- pack (Code TYPE_TIME) (if py_truthy when then when else PyFloat now) ;;
  c <- pack (Code TYPE_PLUGIN) (PyStr plugin_name) ;;
  d <- pack (Code TYPE_PLUGIN_INSTANCE) (PyStr plugin_inst) ;;
  e <- pack (Code TYPE_TYPE) (PyStr PLUGIN_TYPE) ;;
  f <- pack (Code TYPE_INTERVAL) (PyInt SEND_INTERVAL) ;;
  Ok (List.concat [a; b; c; d; e; f]).

(** The variables of the loop of [messages]. *)
Record pack_state : Type := {
  packets : list bytes;
  curr : list bytes;
  curr_len : Z
}.

(** One iteration of [for part in parts]. *)
Definition messages_step (start : bytes) (st : pack_state) (part : bytes)
  : pack_state :=
  let st1 :=
    if MAX_PACKET_SIZE <? curr_len st + len part
    then {| packets := packets st ++ [List.concat (curr st)];
            curr := [start];
            curr_len := len start |}
    else st in
  {| packets := packets st1;
     curr := curr st1 ++ [part];
     curr_len := curr_len st1 + len part |}.

(** [counts] is [counts.items()]. *)
Definition messages (counts : list (string * pyval)) (when : pyval)
           (host plugin_inst plugin_name : string) : result (list bytes) :=
  start <- message_start when host plugin_inst plugin_name ;;
  parts <- mapM (fun nc => pack (Name (fst nc)) (snd nc)) counts ;;
  let parts := filter (fun p => len start + len p <=? MAX_PACKET_SIZE) parts in
  match parts with
  | [] => Ok []
  | _ :: _ =>
      let st := fold_left (messages_step start) parts
                  {| packets := []; curr := [start]; curr_len := len start |} in
      Ok (packets st ++ [List.concat (curr st)])
  end.

End Codec.

(* ===================================================================== *)
(** * [sanitize]                                                          *)
(* ===================================================================== *)

Definition in_range (lo hi c : ascii) : bool :=
  (N_of_ascii lo <=? N_of_ascii c)%N && (N_of_ascii c <=? N_of_ascii hi)%N.

(** The character class [a-zA-Z0-9]. *)
Definition is_alnum (c : ascii) : bool :=
  in_range "a"%char "z"%char c || in_range "A"%char "Z"%char c || in_range "0"%char "9"%char c.

Definition underscore : ascii := "_"%char.

(** [re.sub(r"[^a-zA-Z0-9]+", "_", s)], scanning left to right.  [in_run]
    tells that the previous character belonged to a match, which the
    greedy [+] extends over every following character outside the class. *)
Fixpoint re_sub_runs (in_run : bool) (s : string) : string :=
  match s with
  | EmptyString => EmptyString
  | String c r =>
      if is_alnum c then String c (re_sub_runs false r)
      else if in_run then re_sub_runs true r
      else String underscore (re_sub_runs true r)
  end.

(** [s.lstrip(c)] and [s.rstrip(c)] for a one-character set. *)
Fixpoint lstrip (c : ascii) (s : string) : string :=
  match s with
  | EmptyString => EmptyString
  | String a r => if Ascii.eqb a c then lstrip c r else s
  end.

Fixpoint rstrip (c : ascii) (s : string) : string :=
  match s with
  | EmptyString => EmptyString
  | String a r =>
      match rstrip c r with
      | EmptyString => if Ascii.eqb a c then EmptyString else String a EmptyString
      | r' => String a r'
      end
  end.

Definition strip (c : ascii) (s : string) : string := rstrip c (lstrip c s).

Definition sanitize (s : string) : string :=
  strip underscore (re_sub_runs false s).

(* ===================================================================== *)
(** * Dictionaries                                                        *)
(* ===================================================================== *)

Section Dict.

Context {K V : Type}.
Variable eqb : K -> K -> bool.

(** [d.get(k)] *)
Fixpoint dict_get (d : list (K * V)) (k : K) : option V :=
  match d with
  | [] => None
  | (k', v) :: r => if eqb k' k then Some v else dict_get r k
  end.

(** [d[k] = v] *)
Fixpoint dict_set (d : list (K * V)) (k : K) (v : V) : list (K * V) :=
  match d with
  | [] => [(k, v)]
  | (k', v') :: r => if eqb k' k then (k', v) :: r else (k', v') :: dict_set r k v
  end.

(** [d[k]] on a [defaultdict]: a missing key is first bound to the
    default.  Returns the value and the dictionary. *)
Definition dict_getitem (default : V) (d : list (K * V)) (k : K)
  : V * list (K * V) :=
  match dict_get d k with
  | Some v => (v, d)
  | None => (default, dict_set d k default)
  end.

Definition keys (d : list (K * V)) : list K := map fst d.

End Dict.

(* ===================================================================== *)
(** * [swallow_errors] and [synchronized]                                 *)
(* ===================================================================== *)

(** A method: from the state of its object to the new state and either a
    value or an exception. *)
Definition method (S A : Type) : Type := S -> S * result A.

(** [swallow_errors(func)]: the result of [func], or [None] when [func]
    raised.  The handler only logs, and a failure of the logger is itself
    discarded ([except: pass]), so it changes nothing of the state.  The
    wrapped call never raises: its outcome is [Ok (Some a)] for the value
    [a] of [func] and [Ok None] for the [None] of the handler. *)
Definition swallow_errors {S A : Type} (func : method S A) : method S (option A) :=
  fun s =>
    match func s with
    | (s', Ok a) => (s', Ok (Some a))
    | (s', Raise _) => (s', Ok None)
    end.

(** A keyword argument is named [self]. *)
Definition binds_self (kwargs : list (string * pyval)) : bool :=
  existsb (fun kv => String.eqb (fst kv) "self") kwargs.

(** [synchronized(method)]: the wrapper is [wrapped(self, *args,
    **kwargs)].  The call binds the object to [self], so a keyword
    argument named [self] gives [self] a second value and the call raises
    [TypeError] before the lock is taken and the method runs.  Otherwise
    the method runs under the re-entrant lock of its object; in a
    sequential execution the lock is free and nothing else happens. *)
Definition synchronized {S A : Type} (kwargs : list (string * pyval))
           (m : method S A) : method S A :=
  fun s => if binds_self kwargs then (s, Raise TypeError) else m s.

(* ===================================================================== *)
(** * [Counter]                                                           *)
(* ===================================================================== *)

(** [defaultdict(float)] and [defaultdict(lambda: defaultdict(float))] *)
Abbreviation cells := (list (string * pyval)).
Abbreviation table := (list (string * list (string * pyval))).

Record Counter : Type := {
  category : string;
  counts : table
}.

(** [Counter(category)] *)
Definition Counter_init (category : string) : Counter :=
  {| category := category; counts := [] |}.

(** [self.counts[specific][stat] += value].  Both subscripts bind a
    missing key to its default before the addition is tried, and the
    inner dictionary is shared with the outer one. *)
Definition add_cell (specific stat : string) (value : pyval) : method table unit :=
  fun t =>
    let (inner, t1) := dict_getitem String.eqb [] t specific in
    let (old, inner1) := dict_getitem String.eqb (PyFloat 0) inner stat in
    match py_add old value with
    | Ok new => (dict_set String.eqb t1 specific (dict_set String.eqb inner1 stat new), Ok tt)
    | Raise e => (dict_set String.eqb t1 specific inner1, Raise e)
    end.

(** [for stat, value in kwargs.items(): ...] for one [specific]. *)
Fixpoint record_stats (specific : pyval) (kwargs : list (string * pyval))
  : method table unit :=
  fun t =>
    match kwargs with
    | [] => (t, Ok tt)
    | (stat, value) :: rest =>
        if is_int_or_float value then
          match py_str specific with
          | Ok sp =>
              match add_cell sp stat value t with
              | (t', Ok _) => record_stats specific rest t'
              | (t', Raise e) => (t', Raise e)
              end
          | Raise e => (t, Raise e)
          end
        else (t, Raise AssertionError)
    end.

(** [for specific in list(args) + [""]: ...] *)
Fixpoint record_specifics (specifics : list pyval) (kwargs : list (string * pyval))
  : method table unit :=
  fun t =>
    match specifics with
    | [] => (t, Ok tt)
    | specific :: rest =>
        if is_basestring specific then
          match record_stats specific kwargs t with
          | (t', Ok _) => record_specifics rest kwargs t'
          | (t', Raise e) => (t', Raise e)
          end
        else (t, Raise AssertionError)
    end.

Definition on_counts {A : Type} (m : method table A) : method Counter A :=
  fun c =>
    let (t, r) := m (counts c) in
    ({| category := category c; counts := t |}, r).

(** The undecorated body of [record]. *)
Definition record_body (args : list pyval) (kwargs : list (string * pyval))
  : method Counter unit :=
  on_counts (record_specifics (args ++ [PyStr ""]) kwargs).

Definition record (args : list pyval) (kwargs : list (string * pyval))
  : method Counter (option unit) :=
  swallow_errors (synchronized kwargs (record_body args kwargs)).

Fixpoint set_exact_stats (kwargs : list (string * pyval)) : method table unit :=
  fun t =>
    match kwargs with
    | [] => (t, Ok tt)
    | (stat, value) :: rest =>
        if is_int_or_float value then
          let (inner, t1) := dict_getitem String.eqb [] t ""%string in
          set_exact_stats rest
            (dict_set String.eqb t1 ""%string (dict_set String.eqb inner stat value))
        else (t, Raise AssertionError)
    end.

Definition set_exact (kwargs : list (string * pyval)) : method Counter (option unit) :=
  swallow_errors (synchronized kwargs (on_counts (set_exact_stats kwargs))).

(** [s.replace("--", "-")]: occurrences are replaced left to right and do
    not overlap. *)
Fixpoint replace_dashes (s : string) : string :=
  match s with
  | EmptyString => EmptyString
  | String c r =>
      match r with
      | String c' r' =>
          if Ascii.eqb c "-" && Ascii.eqb c' "-"
          then String "-" (replace_dashes r')
          else String c (replace_dashes r)
      | EmptyString => String c EmptyString
      end
  end.

(** The name under which [snapshot] reports a cell. *)
Definition derived_name (category specific stat : string) : string :=
  let name_parts := map sanitize [category; specific; stat] in
  replace_dashes (String.concat "-" name_parts).

(** The body of [for stat in counts]; the state is [totals] and the inner
    dictionary [counts], which the loop resets while it walks its keys. *)
Definition snapshot_stat (category specific : string)
           (st : list (string * pyval) * cells) (stat : string)
  : list (string * pyval) * cells :=
  let (totals, counts) := st in
  let name := derived_name category specific stat in
  let (value, counts1) := dict_getitem String.eqb (PyFloat 0) counts stat in
  (dict_set String.eqb totals name value,
   dict_set String.eqb counts1 stat (PyFloat 0)).

(** The body of [for specific, counts in self.counts.items()].  [counts]
    is the inner dictionary object itself, so its resets are seen through
    [self.counts]. *)
Definition snapshot_specific (category : string)
           (st : list (string * pyval) * table) (item : string * cells)
  : list (string * pyval) * table :=
  let (totals, tbl) := st in
  let (specific, counts) := item in
  let (totals', counts') :=
    fold_left (snapshot_stat category specific) (keys counts) (totals, counts) in
  (totals', dict_set String.eqb tbl specific counts').

Definition snapshot : method Counter (list (string * pyval)) :=
  synchronized [] (fun c =>
    let (totals, tbl) :=
      fold_left (snapshot_specific (category c)) (counts c) ([], counts c) in
    ({| category := category c; counts := tbl |}, Ok totals)).

(* ===================================================================== *)
(** * [Connection]                                                        *)
(* ===================================================================== *)

(** The key of [Connection.instances]:
    [(hostname, collectd_host, collectd_port, plugin_inst, plugin_name)]. *)
Definition ident : Type := (string * string * Z * string * string)%type.

Definition ident_eqb (a b : ident) : bool :=
  match a, b with
  | (h1, c1, p1, i1, n1), (h2, c2, p2, i2, n2) =>
      String.eqb h1 h2 && String.eqb c1 c2 && Z.eqb p1 p2
      && String.eqb i1 i2 && String.eqb n1 n2
  end.

(** The attributes [__init__] stores in an instance. *)
Record conn_dict : Type := {
  _counters : list (string * Counter);
  _plugin_inst : string;
  _plugin_name : string;
  _hostname : string;
  _collectd_addr : string * Z
}.

(** An instance: [None] while its [__dict__] is still empty, that is
    between [object.__new__] and the first [__init__]. *)
Definition conn_obj : Type := option conn_dict.

(** Instances live in a heap and are named by their address, so that "the
    same object" is equality of addresses.  Nothing is ever freed: every
    instance stays referenced from [Connection.instances]. *)
Definition ref : Type := nat.

Record world : Type := {
  heap : list conn_obj;
  instances : list (ident * ref)
}.

(** The state of the class when the module has been imported. *)
Definition world_init : world := {| heap := []; instances := [] |}.

(** [object.__new__(cls)]: a new instance at a fresh address. *)
Definition object_new (w : world) : world * ref :=
  ({| heap := heap w ++ [None]; instances := instances w |}, List.length (heap w)).

(** [__new__]: the registered instance of [id], or a new instance that
    is registered under [id]. *)
Definition Connection_new (id : ident) (w : world) : world * ref :=
  match dict_get ident_eqb (instances w) id with
  | Some inst => (w, inst)
  | None =>
      let (w1, inst) := object_new w in
      ({| heap := heap w1; instances := dict_set ident_eqb (instances w1) id inst |},
       inst)
  end.

(** The heap with the object at address [r] replaced. *)
Fixpoint heap_set (h : list conn_obj) (r : ref) (o : conn_obj) : list conn_obj :=
  match h, r with
  | [], _ => []
  | _ :: t, O => o :: t
  | x :: t, S r' => x :: heap_set t r' o
  end.

(** [__init__]: the attributes are stored unless ["_counters"] is in
    [self.__dict__] already. *)
Definition Connection_init (self : ref) (id : ident) (w : world) : world :=
  match id with
  | (hostname, collectd_host, collectd_port, plugin_inst, plugin_name) =>
      match nth_error (heap w) self with
      | Some None =>
          {| heap := heap_set (heap w) self
                       (Some {| _counters := [];
                                _plugin_inst := plugin_inst;
                                _plugin_name := plugin_name;
                                _hostname := hostname;
                                _collectd_addr := (collectd_host, collectd_port) |});
             instances := instances w |}
      | _ => w
      end
  end.

(** The call [Connection(hostname, collectd_host, collectd_port,
    plugin_inst, plugin_name)]: [__new__], then [__init__] on what it
    returned. *)
Definition Connection (id : ident) (w : world) : world * ref :=
  let (w1, inst) := Connection_new id w in
  (Connection_init inst id w1, inst).

(** [name.startswith("_")] *)
Definition starts_with_underscore (name : string) : bool :=
  match name with
  | String c _ => Ascii.eqb c underscore
  | EmptyString => false
  end.

Inductive attr_error : Type := AttributeError.

(** [__getattr__(self, name)]: the counter of that name, created on first
    use.  Returns the instance dictionary too, since it may have grown. *)
Definition Connection_getattr (name : string) (d : conn_dict)
  : conn_dict * (Counter + attr_error) :=
  if starts_with_underscore name then (d, inr AttributeError)
  else
    match dict_get String.eqb (_counters d) name with
    | Some c => (d, inl c)
    | None =>
        let c := Counter_init name in
        ({| _counters := dict_set String.eqb (_counters d) name c;
            _plugin_inst := _plugin_inst d;
            _plugin_name := _plugin_name d;
            _hostname := _hostname d;
            _collectd_addr := _collectd_addr d |}, inl c)
    end.

Definition set_counters (d : conn_dict) (cs : list (string * Counter)) : conn_dict :=
  {| _counters := cs;
     _plugin_inst := _plugin_inst d;
     _plugin_name := _plugin_name d;
     _hostname := _hostname d;
     _collectd_addr := _collectd_addr d |}.

(** The public attribute of the class: [conn.instances] is found by the
    normal lookup, which never asks [__getattr__]. *)
Definition class_attribute (name : string) : bool := String.eqb name "instances".

(** [conn.<name>.<method>(...)] for the connection at address [self]: the
    counter is looked up (or created), the method runs on it, and since
    the counter is the object held in [_counters], its new state is the
    one the connection sees.  An address that holds no initialised
    connection, or a private name, leaves the world as it is; so does
    the name [instances], which yields the registry, a dictionary
    without the methods of a counter. *)
Definition on_counter {A : Type} (self : ref) (name : string)
           (m : method Counter A) (w : world) : world * option (result A) :=
  if class_attribute name then (w, None)
  else
    match nth_error (heap w) self with
    | Some (Some d) =>
        match Connection_getattr name d with
        | (d1, inl c) =>
            let (c', r) := m c in
            ({| heap := heap_set (heap w) self
                          (Some (set_counters d1 (dict_set String.eqb (_counters d1) name c')));
                instances := instances w |}, Some r)
        | (_, inr _) => (w, None)
        end
    | _ => (w, None)
    end.

(** [for c in self._counters.values() if c.counts]: the snapshots, and
    the counters after them.  [snapshot] has no failing branch. *)
Fixpoint snapshot_counters (cs : list (string * Counter))
  : list (string * Counter) * list (list (string * pyval)) :=
  match cs with
  | [] => ([], [])
  | (name, c) :: rest =>
      let (rest', snaps) := snapshot_counters rest in
      match counts c with
      | [] => ((name, c) :: rest', snaps)
      | _ :: _ =>
          match snapshot c with
          | (c', Ok totals) => ((name, c') :: rest', totals :: snaps)
          | (c', Raise _) => ((name, c') :: rest', snaps)
          end
      end
  end.

(** [conn._snapshot()] *)
Definition Connection_snapshot (self : ref) (w : world)
  : world * list (list (string * pyval)) :=
  match nth_error (heap w) self with
  | Some (Some d) =>
      let (cs, snaps) := snapshot_counters (_counters d) in
      ({| heap := heap_set (heap w) self (Some (set_counters d cs));
          instances := instances w |}, snaps)
  | _ => (w, [])
  end.

(** What a client can do to the registry and its connections. *)
Inductive op : Type :=
| OpConnection (id : ident)
| OpRecord (self : ref) (name : string) (args : list pyval) (kwargs : list (string * pyval))
| OpSetExact (self : ref) (name : string) (kwargs : list (string * pyval))
| OpSnapshot (self : ref).

Definition run_op (w : world) (o : op) : world :=
  match o with
  | OpConnection id => fst (Connection id w)
  | OpRecord self name args kwargs => fst (on_counter self name (record args kwargs) w)
  | OpSetExact self name kwargs => fst (on_counter self name (set_exact kwargs) w)
  | OpSnapshot self => fst (Connection_snapshot self w)
  end.

Definition run_ops (w : world) (ops : list op) : world := fold_left run_op ops w.

(* ===================================================================== *)
(** * [start_threads]                                                     *)
(* ===================================================================== *)

(** The functions handed to [daemonize]. *)
Inductive target : Type :=
| take_snapshots
| send_stats.

(** A started daemon thread: [wrapped] looping over [func] and sleeping
    [sleep_for] seconds between two rounds. *)
Record thread : Type := {
  func : target;
  sleep_for : Z
}.

(** The module-level state the guard works on: the value of the
    semaphore [single_start] and the threads started so far. *)
Record process : Type := {
  single_start : Z;
  threads : list thread
}.

(** [Semaphore()] has the initial value 1. *)
Definition process_init : process := {| single_start := 1; threads := [] |}.

(** [single_start.acquire(blocking = False)] *)
Definition acquire_nonblocking (p : process) : process * bool :=
  if 0 <? single_start p
  then ({| single_start := single_start p - 1; threads := threads p |}, true)
  else (p, false).

(** [daemonize(func, sleep_for)]: one more daemon thread is started. *)
Definition daemonize (f : target) (sleep : Z) (p : process) : process :=
  {| single_start := single_start p;
     threads := threads p ++ [{| func := f; sleep_for := sleep |}] |}.

(** [assert single_start.acquire(blocking = False)], then the two calls
    of [daemonize]. *)
Definition start_threads : method process unit :=
  fun p =>
    let (p1, acquired) := acquire_nonblocking p in
    if acquired then
      let p2 := daemonize take_snapshots SEND_INTERVAL p1 in
      let p3 := daemonize send_stats 0 p2 in
      (p3, Ok tt)
    else (p1, Raise AssertionError).

(** [n] calls in a row: the final state and the outcome of each call. *)
Fixpoint start_threads_times (n : nat) (p : process) : process * list (result unit) :=
  match n with
  | O => (p, [])
  | S k =>
      let (p1, r) := start_threads p in
      let (p2, rs) := start_threads_times k p1 in
      (p2, r :: rs)
  end.

(** Several threads inside [start_threads] at once.  A caller stands
    before the guard, behind it, between the two calls of [daemonize],
    at the end, or has left with the [AssertionError]; the acquisition of
    the semaphore is atomic. *)
Inductive caller : Type :=
| AtGuard
| Acquired
| CollectorStarted
| Returned
| Failed.

Definition caller_step (c : caller) (p : process) : caller * process :=
  match c with
  | AtGuard =>
      let (p1, acquired) := acquire_nonblocking p in
      (if acquired then Acquired else Failed, p1)
  | Acquired => (CollectorStarted, daemonize take_snapshots SEND_INTERVAL p)
  | CollectorStarted => (Returned, daemonize send_stats 0 p)
  | Returned => (Returned, p)
  | Failed => (Failed, p)
  end.

(** The scheduler lets caller number [i] take its next step. *)
Fixpoint schedule_step (i : nat) (cs : list caller) (p : process)
  : list caller * process :=
  match cs, i with
  | [], _ => ([], p)
  | c :: r, O => let (c', p') := caller_step c p in (c' :: r, p')
  | c :: r, S j => let (r', p') := schedule_step j r p in (c :: r', p')
  end.

Definition run_schedule (sched : list nat) (cs : list caller) (p : process)
  : list caller * process :=
  fold_left (fun st i => schedule_step i (fst st) (snd st)) sched (cs, p).

(** A caller that holds nothing: not yet at the semaphore, or refused. *)
Definition idle (c : caller) : Prop := c = AtGuard \/ c = Failed.

(** What the caller that passed the guard has started so far. *)
Definition started (c : caller) : list thread :=
  match c with
  | CollectorStarted => [ {| func := take_snapshots; sleep_for := SEND_INTERVAL |} ]
  | Returned => [ {| func := take_snapshots; sleep_for := SEND_INTERVAL |};
                  {| func := send_stats; sleep_for := 0 |} ]
  | _ => []
  end.

(** The invariant of the guard: either the semaphore is free and nobody
    has passed, or it is taken and exactly one caller is behind it. *)
Definition guard_inv (cs : list caller) (p : process) : Prop :=
  (single_start p = 1 /\ threads p = [] /\ Forall (fun c => c = AtGuard) cs)
  \/ (single_start p = 0
      /\ exists pre c post,
           cs = pre ++ c :: post
           /\ Forall idle pre /\ Forall idle post
           /\ c <> AtGuard /\ c <> Failed
           /\ threads p = started c).

(* ===================================================================== *)
(** * Predicates used in the statements                                   *)
(* ===================================================================== *)

(** The text after an alphanumeric character of a sanitized name: only
    alphanumeric characters and underscores, every underscore directly
    followed by an alphanumeric character. *)
Fixpoint clean_tail (s : string) : bool :=
  match s with
  | EmptyString => true
  | String c r =>
      if is_alnum c then clean_tail r
      else Ascii.eqb c underscore
           && match r with
              | String c' _ => is_alnum c'
              | EmptyString => false
              end
           && clean_tail r
  end.

(** A sanitized name: empty, or starting with an alphanumeric character
    and continuing as above, hence without leading, trailing or doubled
    underscore. *)
Definition sanitized (s : string) : bool :=
  match s with
  | EmptyString => true
  | String c _ => is_alnum c && clean_tail s
  end.

(** The weaker shape of the output of [re.sub]: underscores are single
    but may stand first (unless [after_underscore]) or last. *)
Fixpoint loose (after_underscore : bool) (s : string) : bool :=
  match s with
  | EmptyString => true
  | String c r =>
      if is_alnum c then loose false r
      else Ascii.eqb c underscore && negb after_underscore && loose true r
  end.

(** The packets of [messages] come from a list of groups of fields, each
    group sent behind its own copy of the header. *)
Definition packet_of (start : bytes) (group : list bytes) : bytes :=
  start ++ List.concat group.

(** A group is closed only because the first field of the next group did
    not fit behind it. *)
Fixpoint greedy (start : bytes) (groups : list (list bytes)) : Prop :=
  match groups with
  | g1 :: rest =>
      match rest with
      | g2 :: _ =>
          MAX_PACKET_SIZE < len (packet_of start g1) + len (hd [] g2)
          /\ greedy start rest
      | [] => True
      end
  | [] => True
  end.

(** The invariant of the loop of [messages]: [gs] are the groups already
    emitted and [g] is the group being filled. *)
Record pack_inv (start : bytes) (st : pack_state) (gs : list (list bytes))
       (g : list bytes) : Prop := {
  inv_packets : packets st = map (packet_of start) gs;
  inv_curr : curr st = start :: g;
  inv_len : curr_len st = len (packet_of start g);
  inv_nonempty : Forall (fun x => x <> []) (gs ++ [g]);
  inv_bounded :
    Forall (fun x => len (packet_of start x) <= MAX_PACKET_SIZE) (gs ++ [g]);
  inv_greedy : greedy start (gs ++ [g])
}.

(** What the [if parts:] block of [messages] computes from the fields
    that passed the filter. *)
Definition pack_parts (start : bytes) (parts : list bytes) : list bytes :=
  match parts with
  | [] => []
  | _ :: _ =>
      let st := fold_left (messages_step start) parts
                  {| packets := []; curr := [start]; curr_len := len start |} in
      packets st ++ [List.concat (curr st)]
  end.

(** [c * n], a string of [n] copies of one character. *)
Fixpoint repeat_char (c : ascii) (n : nat) : string :=
  match n with
  | O => EmptyString
  | S k => String c (repeat_char c k)
  end.

(** The class invariant of [Connection]: every registered address holds
    an initialised instance, and no address is registered twice. *)
Definition world_ok (w : world) : Prop :=
  (forall id r, dict_get ident_eqb (instances w) id = Some r ->
                exists d, nth_error (heap w) r = Some (Some d))
  /\ (forall id1 id2 r,
        dict_get ident_eqb (instances w) id1 = Some r ->
        dict_get ident_eqb (instances w) id2 = Some r -> id1 = id2).

(* ===================================================================== *)
(** * Notions used to state the properties of [Counter]                   *)
(* ===================================================================== *)

(** The value held by the cell [(specific, stat)], if the cell exists. *)
Definition cell (t : table) (specific stat : string) : option pyval :=
  match dict_get String.eqb t specific with
  | Some inner => dict_get String.eqb inner stat
  | None => None
  end.

(** A table fed by [record] alone holds floats: every cell starts from
    the default [0.0] and a float plus a number is a float. *)
Definition floats_only (t : table) : Prop :=
  forall sp st v, cell t sp st = Some v -> exists f, v = PyFloat f.


Definition float_of_cell (old : option pyval) : float :=
  match old with
  | Some (PyFloat f) => f
  | _ => 0%float
  end.



(** What one call of [record] goes through, in order: for each specific
    name its type test, then for each stat the type test of the value
    and the addition. *)
Inductive item : Type :=
| CheckSpecific (specific : pyval)
| AddStat (specific : pyval) (stat : string) (value : pyval).






(** The cells of a table, in the order in which [snapshot] visits them. *)
Definition all_cells (t : table) : list (string * string * pyval) :=
  flat_map (fun item => map (fun kv => (fst item, fst kv, snd kv)) (snd item)) t.

(** [totals[name] = counts[stat]] for one cell. *)
Definition emit (category : string) (totals : list (string * pyval))
           (e : string * string * pyval) : list (string * pyval) :=
  dict_set String.eqb totals (derived_name category (fst (fst e)) (snd (fst e)))
           (snd e).

(** Every cell back to [0.0], the keys kept. *)
Definition reset_cells (cs : cells) : cells :=
  map (fun kv => (fst kv, PyFloat 0)) cs.

Definition reset_table (t : table) : table :=
  map (fun item => (fst item, reset_cells (snd item))) t.

(** The tables are dictionaries of dictionaries: no key occurs twice. *)
Definition table_wf (t : table) : Prop :=
  NoDup (keys t) /\ Forall (fun item => NoDup (keys (snd item))) t.

(** A call of [record], its positional and its keyword arguments; it
    is valid when every specific name is a string that [str] accepts (a
    byte string, or a unicode string of ASCII characters), every stat
    value a number, and no stat is named [self]. *)
Definition call : Type := (list pyval * list (string * pyval))%type.


(** A sequence of calls on one counter. *)
Definition record_all (calls : list call) (c : Counter) : Counter :=
  fold_left (fun c call => fst (record (fst call) (snd call) c)) calls c.


(* ===================================================================== *)
(** * [struct.unpack] and slices                                          *)
(* ===================================================================== *)

Definition Z_of_byte (b : byte) : Z := Z.of_N (N_of_ascii (ascii_of_byte b)).

(** The unsigned number written by big-endian bytes. *)
Definition be_value (b : bytes) : Z :=
  fold_left (fun acc x => acc * 256 + Z_of_byte x) b 0.

(** [s[i:j]] for [0 <= i <= j]. *)
Definition slice (i j : nat) (s : bytes) : bytes := firstn (j - i) (skipn i s).

(** [struct.unpack("!H", b)[0]]; [struct.error] unless [b] has 2 bytes. *)
Definition unpack_H (b : bytes) : result Z :=
  if Nat.eqb (List.length b) 2 then Ok (be_value b) else Raise StructError.

(** [struct.unpack("!HH", b)] *)
Definition unpack_HH (b : bytes) : result (Z * Z) :=
  if Nat.eqb (List.length b) 4
  then Ok (be_value (firstn 2 b), be_value (skipn 2 b))
  else Raise StructError.

(** [struct.unpack("!q", b)[0]]: 8 bytes in two's complement. *)
Definition unpack_q (b : bytes) : result Z :=
  if Nat.eqb (List.length b) 8
  then Ok (let u := be_value b in if u <? 2 ^ 63 then u else u - 2 ^ 64)
  else Raise StructError.

(* ===================================================================== *)
(** * [unit_tests.py]: [BaseCase.assertValidPacket]                       *)
(* ===================================================================== *)

Definition VALUE_COUNTER : Z := 0.
Definition VALUE_DERIVE : Z := 2.
Definition VALUE_ABSOLUTE : Z := 3.

(** The dictionary [VALUE_CODES], from value kind to [struct] format. *)
Definition VALUE_CODES : list (Z * string) :=
  [(VALUE_COUNTER, "!Q"%string); (VALUE_GAUGE, "<d"%string);
   (VALUE_DERIVE, "!q"%string); (VALUE_ABSOLUTE, "!Q"%string)].

(** The inner loop [while values:].  Each round reads the kind in
    [values[0]], unpacks [values[1:9]] with the format of the kind, all
    of which take exactly 8 bytes, and goes on with [values[9:]]. *)
Fixpoint check_values (values : bytes) (count : Z) : result Z :=
  match values with
  | [] => Ok count
  | v0 :: after_kind =>
      match dict_get Z.eqb VALUE_CODES (Z_of_byte v0) with
      | None => Raise AssertionError
      | Some _ =>
          match after_kind with
          | _ :: _ :: _ :: _ :: _ :: _ :: _ :: _ :: rest =>
              check_values rest (count + 1)
          | _ => Raise StructError
          end
      end
  end.

(** One round of the outer loop [while s:] up to [s = s[size:]]: the type
    code and the size of the field at the head of [s], when it passes
    every assertion. *)
Definition check_field (s : bytes) : result (Z * Z) :=
  header <- unpack_HH (slice 0 4 s) ;;
  let (type_code, size) := header in
  if negb (0 <? size) then Raise AssertionError
  else if negb (size <=? len s) then Raise AssertionError
  else if negb (existsb (Z.eqb type_code)
                  (LONG_INT_CODES ++ STRING_CODES ++ [TYPE_VALUES]))
  then Raise AssertionError
  else
    _ <- (if existsb (Z.eqb type_code) LONG_INT_CODES then
            if negb (size =? 12) then Raise AssertionError
            else _ <- unpack_q (slice 4 12 s) ;; Ok tt
          else if existsb (Z.eqb type_code) STRING_CODES then
            match nth_error s (Z.to_nat (size - 1)) with
            | Some x00 => if size - 4 <? 0 then Raise StructError else Ok tt
            | _ => Raise AssertionError
            end
          else
            if negb (type_code =? TYPE_VALUES) then Raise AssertionError
            else
              count <- check_values (slice 6 (Z.to_nat size) s) 0 ;;
              announced <- unpack_H (slice 4 6 s) ;;
              if count =? announced then Ok tt else Raise AssertionError) ;;
    Ok (type_code, size).

(** The outer loop.  Every round drops [size > 0] bytes, so [fuel] rounds
    are enough for [fuel] bytes; [None] tells that the fuel ran out. *)
Fixpoint check_fields (fuel : nat) (s : bytes) (type_codes : list (Z * Z))
  : option (result (list (Z * Z))) :=
  match s with
  | [] => Some (Ok type_codes)
  | _ :: _ =>
      match fuel with
      | O => None
      | S fuel' =>
          match check_field s with
          | Ok (type_code, size) =>
              check_fields fuel' (skipn (Z.to_nat size) s)
                           (dict_set Z.eqb type_codes type_code 1)
          | Raise e => Some (Raise e)
          end
      end
  end.

(** [sum(d.values())] *)
Definition sum_values (d : list (Z * Z)) : Z :=
  fold_left (fun acc kv => acc + snd kv) d 0.

Definition assertValidPacket (expected_type_count : Z) (s : bytes)
  : option (result unit) :=
  match check_fields (List.length s) s [] with
  | None => None
  | Some (Raise e) => Some (Raise e)
  | Some (Ok type_codes) =>
      Some (if expected_type_count =? sum_values type_codes
            then Ok tt else Raise AssertionError)
  end.

(** The three shapes of field the codec writes, each with its type code:
    a number, a NUL-terminated string, and a list of one value. *)
Inductive field : bytes -> Z -> Prop :=
| field_numeric (c : Z) (payload : bytes) :
    In c LONG_INT_CODES -> List.length payload = 8%nat ->
    field (be_bytes 2 c ++ be_bytes 2 12 ++ payload) c
| field_string (c : Z) (s : string) :
    In c STRING_CODES -> Z.of_nat (String.length s) <= 65530 ->
    field ((be_bytes 2 c ++ be_bytes 2 (5 + Z.of_nat (String.length s)))
           ++ list_byte_of_string s ++ [x00]) c
| field_values (payload : bytes) :
    List.length payload = 8%nat ->
    field ((be_bytes 2 TYPE_VALUES ++ be_bytes 2 15 ++ be_bytes 2 1)
           ++ [byte_of_Z VALUE_GAUGE] ++ payload) TYPE_VALUES.

(** The type codes seen once every kind of field of a packet has passed. *)
Definition all_type_codes : list (Z * Z) :=
  [(TYPE_HOST, 1); (TYPE_TIME, 1); (TYPE_PLUGIN, 1); (TYPE_PLUGIN_INSTANCE, 1);
   (TYPE_TYPE, 1); (TYPE_INTERVAL, 1); (TYPE_TYPE_INSTANCE, 1); (TYPE_VALUES, 1)].

(** [s] is a sequence of fields with the type codes [codes], in order. *)
Definition fields_of (s : bytes) (codes : list Z) : Prop :=
  exists fs : list (bytes * Z),
    s = List.concat (map fst fs)
    /\ Forall (fun fc => field (fst fc) (snd fc)) fs
    /\ map snd fs = codes.

(** The type codes of a packet with [k] value fields. *)
Definition packet_codes {A : Type} (group : list A) : list Z :=
  [TYPE_HOST; TYPE_TIME; TYPE_PLUGIN; TYPE_PLUGIN_INSTANCE; TYPE_TYPE; TYPE_INTERVAL]
  ++ List.concat (map (fun _ => [TYPE_TYPE_INSTANCE; TYPE_VALUES]) group).

(* ===================================================================== *)
(** * Notions for the statements on names                                 *)
(* ===================================================================== *)

(** Every character of [s] satisfies [p]. *)
Fixpoint string_forall (p : ascii -> bool) (s : string) : bool :=
  match s with
  | EmptyString => true
  | String c r => p c && string_forall p r
  end.

Definition all_alnum (s : string) : bool := string_forall is_alnum s.

Definition no_alnum (s : string) : bool :=
  string_forall (fun c => negb (is_alnum c)) s.

Definition dash : ascii := "-"%char.

Definition no_dash (s : string) : bool :=
  string_forall (fun c => negb (Ascii.eqb c dash)) s.

(* ===================================================================== *)
(** * Notions for the statements on [Connection]                          *)
(* ===================================================================== *)

(** The attributes that [__init__] stores for the arguments [id]. *)
Definition attrs_of (id : ident) (d : conn_dict) : Prop :=
  match id with
  | (hostname, collectd_host, collectd_port, plugin_inst, plugin_name) =>
      _hostname d = hostname
      /\ _collectd_addr d = (collectd_host, collectd_port)
      /\ _plugin_inst d = plugin_inst
      /\ _plugin_name d = plugin_name
  end.

(** Every registered instance carries the attributes of its key. *)
Definition registry_ok (w : world) : Prop :=
  forall id r d,
    dict_get ident_eqb (instances w) id = Some r ->
    nth_error (heap w) r = Some (Some d) -> attrs_of id d.

(* ===================================================================== *)
(** * [take_snapshots] and [send_stats]                                   *)
(* ===================================================================== *)

Module Daemon.

(** An entry of the queue [snaps]: [[int(time.time()), stats, conn]].
    The connection is held by reference; its attributes are read when the
    entry is sent. *)
Abbreviation entry := (pyval * list (string * pyval) * ref)%type.

(** What [sock.sendto(message, address)] is called with. *)
Abbreviation datagram := (bytes * (string * Z))%type.

(** The module-level state: the class [Connection] with its instances,
    the queue [snaps] (oldest entry first), and the datagrams handed to
    [sock] so far. *)
Record state : Type := {
  conns : world;
  snaps : list entry;
  sent : list datagram
}.

(** [stats.update(snapshot)] *)
Definition update (stats snapshot : list (string * pyval)) : list (string * pyval) :=
  fold_left (fun d kv => dict_set String.eqb d (fst kv) (snd kv)) snapshot stats.

(** The body of [for conn in Connection.instances.values()]; [now] is
    the value of [time.time()]. *)
Definition take_snapshot (now : float) (conn : ref) : method state unit :=
  fun s =>
    let (w, snapshots) := Connection_snapshot conn (conns s) in
    match snapshots with
    | [] => ({| conns := w; snaps := snaps s; sent := sent s |}, Ok tt)
    | _ :: _ =>
        let stats := fold_left update snapshots [] in
        match trunc_float now with
        | Ok t =>
            ({| conns := w;
                snaps := snaps s ++ [(int_result t, stats, conn)];
                sent := sent s |}, Ok tt)
        | Raise e => ({| conns := w; snaps := snaps s; sent := sent s |}, Raise e)
        end
    end.

Fixpoint take_snapshots_loop (now : float) (values : list ref) : method state unit :=
  fun s =>
    match values with
    | [] => (s, Ok tt)
    | conn :: rest =>
        match take_snapshot now conn s with
        | (s', Ok _) => take_snapshots_loop now rest s'
        | (s', Raise e) => (s', Raise e)
        end
    end.

(** [take_snapshots()]; [values()] is a list made before the loop. *)
Definition take_snapshots (now : float) : method state unit :=
  fun s => take_snapshots_loop now (map snd (instances (conns s))) s.

(** What can come out of [send_stats]: [Queue.Empty], the
    [AttributeError] of an instance without attributes, an exception of
    [messages], and the [socket.error] of [sendto]. *)
Inductive failure : Type :=
| Empty
| Attribute (e : attr_error)
| Codec (e : exn)
| SocketError.

Section Network.

(** Whether the system accepts a datagram; [sendto] raises otherwise. *)
Variable sendto_ok : datagram -> bool.

(** [for message in ...: sock.sendto(message, conn._collectd_addr)] *)
Fixpoint send_messages (addr : string * Z) (msgs : list bytes) (out : list datagram)
  : list datagram * option failure :=
  match msgs with
  | [] => (out, None)
  | message :: rest =>
      if sendto_ok (message, addr)
      then send_messages addr rest (out ++ [(message, addr)])
      else (out, Some SocketError)
  end.

(** [send_stats(raise_on_empty)]: [None] when it returns, the exception
    otherwise.  [snaps.get] has removed the entry before anything else
    is tried, and only [Empty] is caught. *)
Definition send_stats (now : float) (raise_on_empty : bool) (s : state)
  : state * option failure :=
  match snaps s with
  | [] => (s, if raise_on_empty then Some Empty else None)
  | (when, stats, conn) :: rest =>
      match nth_error (heap (conns s)) conn with
      | Some (Some d) =>
          match messages now stats when (_hostname d) (_plugin_inst d) (_plugin_name d) with
          | Ok msgs =>
              let (out, r) := send_messages (_collectd_addr d) msgs (sent s) in
              ({| conns := conns s; snaps := rest; sent := out |}, r)
          | Raise e =>
              ({| conns := conns s; snaps := rest; sent := sent s |}, Some (Codec e))
          end
      | _ =>
          ({| conns := conns s; snaps := rest; sent := sent s |},
           Some (Attribute AttributeError))
      end
  end.

End Network.

(** The truth value of [c.counts]: something has been recorded. *)
Definition has_counts (c : Counter) : bool :=
  match counts c with
  | [] => false
  | _ :: _ => true
  end.

(** Some counter of the connection at [r] has recorded something. *)
Definition has_data (w : world) (r : ref) : bool :=
  match nth_error (heap w) r with
  | Some (Some d) => existsb (fun nc => has_counts (snd nc)) (_counters d)
  | _ => false
  end.

End Daemon.


(* ===================================================================== *)
(** * Properties of [sanitize]                                            *)
(* ===================================================================== *)

Section Sanitize.

Lemma alnum_not_underscore (c : ascii) :
  is_alnum c = true -> Ascii.eqb c underscore = false.
Proof.
  intros H. destruct (Ascii.eqb_spec c underscore) as [->|]; [|reflexivity].
  discriminate H.
Qed.

Lemma re_sub_runs_loose (s : string) :
  forall b, loose b (re_sub_runs b s) = true.
Proof.
  induction s as [|c r IH]; intros b; simpl; [reflexivity|].
  destruct (is_alnum c) eqn:Hc; simpl.
  - rewrite Hc. apply IH.
  - destruct b; [apply IH|]. simpl. apply IH.
Qed.

Lemma loose_weaken (s : string) : loose true s = true -> loose false s = true.
Proof.
  destruct s as [|c r]; simpl; [reflexivity|].
  destruct (is_alnum c); [auto|]. rewrite andb_false_r. discriminate.
Qed.

Lemma lstrip_loose_true (s : string) :
  loose true s = true -> lstrip underscore s = s.
Proof.
  destruct s as [|c r]; simpl; [reflexivity|].
  destruct (is_alnum c) eqn:Hc.
  - rewrite (alnum_not_underscore c Hc). reflexivity.
  - rewrite andb_false_r. discriminate.
Qed.

Lemma lstrip_loose (s : string) :
  loose false s = true -> loose true (lstrip underscore s) = true.
Proof.
  destruct s as [|c r]; simpl; [reflexivity|].
  destruct (is_alnum c) eqn:Hc.
  - rewrite (alnum_not_underscore c Hc). simpl. rewrite Hc. auto.
  - intros H. apply andb_prop in H as [H Hr]. apply andb_prop in H as [H _].
    rewrite H. rewrite (lstrip_loose_true r Hr). exact Hr.
Qed.

(** [rstrip] returns a prefix: when it is not empty it starts like its
    argument. *)
Lemma rstrip_head (c : ascii) (a : ascii) (r : string) :
  rstrip c (String a r) = EmptyString \/
  exists r', rstrip c (String a r) = String a r'.
Proof.
  simpl. destruct (rstrip c r) as [|x y].
  - destruct (Ascii.eqb a c); [left; reflexivity | right; eexists; reflexivity].
  - right; eexists; reflexivity.
Qed.

Lemma rstrip_clean_tail (s : string) :
  forall b, loose b s = true -> clean_tail (rstrip underscore s) = true.
Proof.
  induction s as [|c r IH]; intros b H; [reflexivity|].
  simpl in H. destruct (is_alnum c) eqn:Hc.
  - specialize (IH false H). simpl.
    destruct (rstrip underscore r) as [|x y] eqn:Hr.
    + rewrite (alnum_not_underscore c Hc). simpl. rewrite Hc. reflexivity.
    + simpl. rewrite Hc. exact IH.
  - apply andb_prop in H as [H Hr]. apply andb_prop in H as [Hu _].
    specialize (IH true Hr). simpl.
    destruct r as [|a r'].
    + simpl. rewrite Hu. reflexivity.
    + destruct (rstrip_head underscore a r') as [E | [r'' E]].
      * rewrite E, Hu. reflexivity.
      * rewrite E in *. simpl. rewrite Hc, Hu. simpl.
        simpl in Hr. destruct (is_alnum a) eqn:Ha.
        -- simpl. simpl in IH. rewrite Ha in IH. exact IH.
        -- rewrite andb_false_r in Hr. discriminate.
Qed.

Lemma sanitize_sanitized (s : string) : sanitized (sanitize s) = true.
Proof.
  unfold sanitize, strip.
  pose proof (lstrip_loose _ (re_sub_runs_loose s false)) as H.
  pose proof (rstrip_clean_tail _ _ H) as Hc.
  destruct (lstrip underscore (re_sub_runs false s)) as [|a r]; [reflexivity|].
  destruct (rstrip_head underscore a r) as [E | [r' E]]; rewrite E in *.
  - reflexivity.
  - unfold sanitized. rewrite Hc, andb_true_r.
    simpl in H. destruct (is_alnum a); [reflexivity|].
    rewrite andb_false_r in H. discriminate.
Qed.

Lemma clean_tail_re_sub (s : string) :
  clean_tail s = true -> re_sub_runs false s = s.
Proof.
  induction s as [|c r IH]; simpl; [reflexivity|].
  destruct (is_alnum c) eqn:Hc; intros H.
  - rewrite (IH H). reflexivity.
  - apply andb_prop in H as [H Hr]. apply andb_prop in H as [Hu Ha].
    apply Ascii.eqb_eq in Hu. subst c. f_equal.
    specialize (IH Hr). destruct r as [|a r']; [reflexivity|].
    simpl in *. rewrite Ha in *. exact IH.
Qed.

Lemma clean_tail_rstrip (s : string) :
  clean_tail s = true -> rstrip underscore s = s.
Proof.
  induction s as [|c r IH]; simpl; [reflexivity|].
  destruct (is_alnum c) eqn:Hc; intros H.
  - rewrite (IH H). destruct r; [|reflexivity].
    rewrite (alnum_not_underscore c Hc). reflexivity.
  - apply andb_prop in H as [H Hr]. apply andb_prop in H as [_ Ha].
    rewrite (IH Hr). destruct r; [discriminate|reflexivity].
Qed.

Lemma sanitized_fixpoint (s : string) :
  sanitized s = true -> sanitize s = s.
Proof.
  unfold sanitized, sanitize, strip.
  destruct s as [|c r]; [reflexivity|].
  intros H. apply andb_prop in H as [Hc Ht].
  rewrite (clean_tail_re_sub _ Ht).
  simpl lstrip. rewrite (alnum_not_underscore c Hc).
  apply (clean_tail_rstrip _ Ht).
Qed.

End Sanitize.

(** C10. [sanitize] is idempotent: sanitizing a sanitized name changes
    nothing, because the output of [sanitize] holds only alphanumeric
    characters and single interior underscores, none of them first or
    last. *)
Theorem sanitize_idempotent (s : string) :
  sanitize (sanitize s) = sanitize s /\ sanitized (sanitize s) = true.
Proof.
  split.
  - apply sanitized_fixpoint, sanitize_sanitized.
  - apply sanitize_sanitized.
Qed.

(* ===================================================================== *)
(** * The single-start guard                                              *)
(* ===================================================================== *)

Lemma start_threads_guarded (p : process) :
  single_start p <= 0 -> start_threads p = (p, Raise AssertionError).
Proof.
  intros H. unfold start_threads, acquire_nonblocking.
  destruct (Z.ltb_spec 0 (single_start p)); [lia | reflexivity].
Qed.

Lemma start_threads_times_guarded (n : nat) (p : process) :
  single_start p <= 0 ->
  start_threads_times n p = (p, repeat (Raise AssertionError) n).
Proof.
  intros H. induction n as [|n IH]; simpl; [reflexivity|].
  rewrite (start_threads_guarded p H), IH. reflexivity.
Qed.

(** C8. Of any number of calls of [start_threads] in a process, the first
    one takes the semaphore and starts the collector and the sender; each
    later call fails its assertion with the threads unchanged, so there
    is never a second collector or sender. *)
Theorem start_threads_once (n : nat) :
  start_threads_times (S n) process_init =
  ({| single_start := 0;
      threads := [ {| func := take_snapshots; sleep_for := SEND_INTERVAL |};
                   {| func := send_stats; sleep_for := 0 |} ] |},
   Ok tt :: repeat (Raise AssertionError) n).
Proof.
  cbn [start_threads_times]. cbv [start_threads process_init acquire_nonblocking
    daemonize single_start threads Z.ltb Z.compare Z.sub Z.add Z.opp Z.pos_sub app].
  rewrite start_threads_times_guarded by (simpl; lia).
  reflexivity.
Qed.

(** With any number of threads calling [start_threads] and any
    interleaving of their steps, at most one caller gets past the
    semaphore, and the threads started are those of that caller. *)
Section Interleaving.

Lemma idle_step (cs : list caller) :
  forall i p, single_start p = 0 -> Forall idle cs ->
  exists cs', schedule_step i cs p = (cs', p) /\ Forall idle cs'.
Proof.
  induction cs as [|c cs IH]; intros i p Hp Hi.
  - exists []. destruct i; split; auto.
  - inversion Hi as [|? ? Hc Hcs]; subst. destruct i as [|i]; cbn [schedule_step].
    + destruct Hc as [-> | ->]; cbn [caller_step].
      * unfold acquire_nonblocking. rewrite Hp. cbn.
        exists (Failed :: cs). split; [reflexivity|].
        constructor; [now right | exact Hcs].
      * exists (Failed :: cs). split; [reflexivity | exact Hi].
    + destruct (IH i p Hp Hcs) as (cs' & E & Hi'). rewrite E.
      exists (c :: cs'). split; [reflexivity | now constructor].
Qed.

Lemma schedule_step_app (a b : list caller) :
  forall i p,
    schedule_step i (a ++ b) p =
    if (i <? List.length a)%nat
    then (fst (schedule_step i a p) ++ b, snd (schedule_step i a p))
    else (a ++ fst (schedule_step (i - List.length a) b p),
          snd (schedule_step (i - List.length a) b p)).
Proof.
  induction a as [|c a IH]; intros i p.
  - cbn [app List.length]. rewrite Nat.sub_0_r.
    destruct (i <? 0)%nat eqn:E; [apply Nat.ltb_lt in E; lia|].
    now destruct (schedule_step i b p).
  - destruct i as [|i]; cbn [app schedule_step List.length].
    + now destruct (caller_step c p).
    + rewrite IH. change (S i <? S (List.length a))%nat with (i <? List.length a)%nat.
      cbn [Nat.sub].
      destruct (i <? List.length a)%nat; destruct (schedule_step _ _ p); reflexivity.
Qed.

Lemma guard_inv_step (i : nat) (cs : list caller) (p : process) :
  guard_inv cs p ->
  guard_inv (fst (schedule_step i cs p)) (snd (schedule_step i cs p)).
Proof.
  intros [(Hs & Ht & Hall) | (Hs & pre & c & post & -> & Hpre & Hpost & N1 & N2 & Ht)].
  - revert i. induction Hall as [|c cs -> Hall IH]; intros i.
    + left. destruct i; cbn; auto.
    + destruct i as [|i]; cbn [schedule_step].
      * cbn [caller_step]. unfold acquire_nonblocking. rewrite Hs. cbn.
        right. split; [reflexivity|]. exists [], Acquired, cs.
        repeat split; try discriminate; try constructor.
        -- eapply Forall_impl; [|exact Hall]. intros c ->. now left.
        -- exact Ht.
      * specialize (IH i).
        destruct (schedule_step i cs p) as [cs' p'] eqn:E. cbn [fst snd] in *.
        destruct IH as [(Hs' & Ht' & Hall') | (Hs' & pre & c & post & -> & Hpre & Hpost & N1 & N2 & Ht')].
        -- left. repeat split; auto.
        -- right. split; [exact Hs'|]. exists (AtGuard :: pre), c, post.
           repeat split; auto. constructor; [now left | exact Hpre].
  - right. rewrite schedule_step_app.
    destruct (i <? List.length pre)%nat.
    + destruct (idle_step pre i p Hs Hpre) as (pre' & E & Hpre'). rewrite E.
      cbn [fst snd]. split; [exact Hs|]. exists pre', c, post. repeat split; auto.
    + cbn [fst snd]. destruct (i - List.length pre)%nat as [|j]; cbn [schedule_step].
      * destruct c; try contradiction; cbn [caller_step fst snd].
        -- split; [exact Hs|]. exists pre, CollectorStarted, post.
           repeat split; auto; try discriminate.
           cbn [daemonize threads]. now rewrite Ht.
        -- split; [exact Hs|]. exists pre, Returned, post.
           repeat split; auto; try discriminate.
           cbn [daemonize threads]. now rewrite Ht.
        -- split; [exact Hs|]. exists pre, Returned, post. repeat split; auto.
      * destruct (idle_step post j p Hs Hpost) as (post' & E & Hpost'). rewrite E.
        cbn [fst snd]. split; [exact Hs|]. exists pre, c, post'. repeat split; auto.
Qed.

Lemma guard_inv_run (sched : list nat) :
  forall cs p, guard_inv cs p ->
  guard_inv (fst (run_schedule sched cs p)) (snd (run_schedule sched cs p)).
Proof.
  unfold run_schedule. induction sched as [|i sched IH]; intros cs p H; [exact H|].
  cbn [fold_left fst snd].
  rewrite (surjective_pairing (schedule_step i cs p)). apply IH.
  now apply guard_inv_step.
Qed.

Lemma start_threads_interleaved (n : nat) (sched : list nat) :
  let final := run_schedule sched (repeat AtGuard n) process_init in
  threads (snd final) = []
  \/ exists pre c post,
       fst final = pre ++ c :: post
       /\ Forall idle pre /\ Forall idle post
       /\ threads (snd final) = started c.
Proof.
  intros final.
  assert (H0 : guard_inv (repeat AtGuard n) process_init).
  { left. repeat split. apply Forall_forall. intros c Hc.
    now apply repeat_spec in Hc. }
  destruct (guard_inv_run sched _ _ H0)
    as [(_ & Ht & _) | (_ & pre & c & post & E & Hpre & Hpost & _ & _ & Ht)].
  - now left.
  - right. exists pre, c, post. auto.
Qed.

(** A caller alone goes through [start_threads]. *)
Lemma caller_steps_start_threads (p : process) :
  let (c1, p1) := caller_step AtGuard p in
  let (c2, p2) := caller_step c1 p1 in
  let (c3, p3) := caller_step c2 p2 in
  p3 = fst (start_threads p)
  /\ (c3 = Returned /\ snd (start_threads p) = Ok tt
      \/ c3 = Failed /\ snd (start_threads p) = Raise AssertionError).
Proof.
  unfold start_threads. cbn [caller_step].
  destruct (acquire_nonblocking p) as [p1 [|]]; cbn; auto.
Qed.

End Interleaving.

(* ===================================================================== *)
(** * Sizes of the encoded fields                                         *)
(* ===================================================================== *)

Lemma bind_ok {A B : Type} (m : result A) (k : A -> result B) (b : B) :
  bind m k = Ok b -> exists a, m = Ok a /\ k a = Ok b.
Proof. destruct m as [a|e]; simpl; [eauto | discriminate]. Qed.

Ltac bind_inv H :=
  repeat match type of H with
  | bind _ _ = Ok _ =>
      let a := fresh "x" in let Ha := fresh "E" in
      apply bind_ok in H as (a & Ha & H)
  end.

Ltac ok_inv H := injection H as H; subst.

Lemma len_app (a b : bytes) : len (a ++ b) = len a + len b.
Proof. unfold len. rewrite length_app. lia. Qed.

Lemma len_nonneg (a : bytes) : 0 <= len a.
Proof. unfold len. lia. Qed.

Lemma len_nil : len [] = 0.
Proof. reflexivity. Qed.

Lemma le_bytes_length (n : nat) : forall z, List.length (le_bytes n z) = n.
Proof. induction n as [|n IH]; intros z; simpl; [reflexivity | now rewrite IH]. Qed.

Lemma be_bytes_len (n : nat) (z : Z) : len (be_bytes n z) = Z.of_nat n.
Proof. unfold len, be_bytes. now rewrite length_rev, le_bytes_length. Qed.

Lemma struct_H_len (z : Z) (b : bytes) : struct_H z = Ok b -> len b = 2.
Proof.
  unfold struct_H. destruct (_ && _); [|discriminate].
  intros H. ok_inv H. apply be_bytes_len.
Qed.

Lemma struct_B_len (z : Z) (b : bytes) : struct_B z = Ok b -> len b = 1.
Proof.
  unfold struct_B. destruct (_ && _); [|discriminate].
  intros H. ok_inv H. reflexivity.
Qed.

Lemma struct_q_len (x : pyval) (b : bytes) : struct_q x = Ok b -> len b = 8.
Proof.
  unfold struct_q. intros H. bind_inv H.
  destruct (_ && _); [|discriminate]. ok_inv H. apply be_bytes_len.
Qed.

Lemma struct_d_le_len (x : pyval) (b : bytes) : struct_d_le x = Ok b -> len b = 8.
Proof.
  unfold struct_d_le. intros H.
  destruct x; try discriminate; bind_inv H; ok_inv H; reflexivity.
Qed.

Lemma list_byte_of_string_len (s : string) :
  len (list_byte_of_string s) = Z.of_nat (String.length s).
Proof.
  unfold len, list_byte_of_string. rewrite length_map. f_equal.
  induction s as [|c r IH]; simpl; [reflexivity | now rewrite IH].
Qed.

Lemma pack_numeric_len (c : Z) (x : pyval) (b : bytes) :
  pack_numeric c x = Ok b -> len b = 12.
Proof.
  unfold pack_numeric. intros H. bind_inv H. ok_inv H.
  rewrite !len_app.
  rewrite (struct_H_len _ _ E), (struct_H_len _ _ E0), (struct_q_len _ _ E1).
  reflexivity.
Qed.

Lemma pack_string_len (c : Z) (s : string) (b : bytes) :
  pack_string c (PyStr s) = Ok b -> len b = 5 + Z.of_nat (String.length s).
Proof.
  unfold pack_string. intros H. bind_inv H. ok_inv H.
  rewrite !len_app, list_byte_of_string_len.
  rewrite (struct_H_len _ _ E), (struct_H_len _ _ E0).
  change (len [x00]) with 1. lia.
Qed.

Ltac len_facts :=
  repeat match goal with
  | H : struct_H _ = Ok _ |- _ => apply struct_H_len in H
  | H : struct_B _ = Ok _ |- _ => apply struct_B_len in H
  | H : struct_q _ = Ok _ |- _ => apply struct_q_len in H
  | H : struct_d_le _ = Ok _ |- _ => apply struct_d_le_len in H
  | H : pack_string _ _ = Ok _ |- _ => apply pack_string_len in H
  | H : pack_numeric _ _ = Ok _ |- _ => apply pack_numeric_len in H
  end.

(** An encoded value field: the type-instance string, then 6 and 9 bytes
    for the one-gauge value list. *)
Lemma pack_value_len (name : string) (v : pyval) (b : bytes) :
  pack_value name v = Ok b -> len b = 20 + Z.of_nat (String.length name).
Proof.
  unfold pack_value. intros H. bind_inv H. ok_inv H.
  change (pack_code TYPE_TYPE_INSTANCE (PyStr name))
    with (pack_string TYPE_TYPE_INSTANCE (PyStr name)) in E.
  bind_inv E0. ok_inv E0. bind_inv E1. ok_inv E1.
  cbn [List.concat]. rewrite !len_app, len_nil.
  len_facts. lia.
Qed.

Lemma message_start_len (now : float) (when : pyval) (host pi pn : string)
      (start : bytes) :
  message_start now when host pi pn = Ok start ->
  len start = 49 + Z.of_nat (String.length host) + Z.of_nat (String.length pi)
              + Z.of_nat (String.length pn).
Proof.
  unfold message_start. intros H. bind_inv H. ok_inv H.
  cbn [List.concat]. rewrite !len_app, len_nil.
  change (pack (Code TYPE_HOST) (PyStr host))
    with (pack_string TYPE_HOST (PyStr host)) in E.
  change (pack (Code TYPE_PLUGIN) (PyStr pn))
    with (pack_string TYPE_PLUGIN (PyStr pn)) in E1.
  change (pack (Code TYPE_PLUGIN_INSTANCE) (PyStr pi))
    with (pack_string TYPE_PLUGIN_INSTANCE (PyStr pi)) in E2.
  change (pack (Code TYPE_TYPE) (PyStr PLUGIN_TYPE))
    with (pack_string TYPE_TYPE (PyStr PLUGIN_TYPE)) in E3.
  match type of E0 with pack _ ?w = _ =>
    change (pack (Code TYPE_TIME) w) with (pack_numeric TYPE_TIME w) in E0 end.
  change (pack (Code TYPE_INTERVAL) (PyInt SEND_INTERVAL))
    with (pack_numeric TYPE_INTERVAL (PyInt SEND_INTERVAL)) in E4.
  len_facts.
  change (Z.of_nat (String.length PLUGIN_TYPE)) with 5 in *. lia.
Qed.

(* ===================================================================== *)
(** * The packing loop of [messages]                                      *)
(* ===================================================================== *)

Section Packing.

Variable start : bytes.

Let fits (p : bytes) : bool := len start + len p <=? MAX_PACKET_SIZE.
Let bounded (g : list bytes) : Prop := len (packet_of start g) <= MAX_PACKET_SIZE.

Lemma greedy_grow (gs : list (list bytes)) (g : list bytes) (p : bytes) :
  g <> [] -> greedy start (gs ++ [g]) -> greedy start (gs ++ [g ++ [p]]).
Proof.
  intros Hg. induction gs as [|g1 gs IH]; [exact (fun _ => I)|].
  destruct gs as [|g2 gs]; cbn [app greedy] in *.
  - intros [H _]. split; [|exact I].
    destruct g; [contradiction | exact H].
  - intros [H Hr]. split; [exact H | apply IH, Hr].
Qed.

Lemma greedy_close (gs : list (list bytes)) (g : list bytes) (p : bytes) :
  MAX_PACKET_SIZE < len (packet_of start g) + len p ->
  greedy start (gs ++ [g]) -> greedy start ((gs ++ [g]) ++ [[p]]).
Proof.
  intros Hp. induction gs as [|g1 gs IH].
  - intros _. cbn. auto.
  - destruct gs as [|g2 gs]; cbn [app greedy] in *.
    + intros [H _]. cbn. auto.
    + intros [H Hr]. split; [exact H | apply IH, Hr].
Qed.

Lemma packet_of_snoc (g : list bytes) (p : bytes) :
  len (packet_of start (g ++ [p])) = len (packet_of start g) + len p.
Proof.
  unfold packet_of. rewrite concat_app. cbn [List.concat].
  rewrite !len_app, len_nil. lia.
Qed.

Lemma packet_of_single (p : bytes) :
  len (packet_of start [p]) = len start + len p.
Proof.
  unfold packet_of. cbn [List.concat]. rewrite !len_app, len_nil. lia.
Qed.

Lemma messages_step_inv (st : pack_state) (gs : list (list bytes))
      (g : list bytes) (p : bytes) :
  fits p = true -> pack_inv start st gs g ->
  exists gs' g',
    pack_inv start (messages_step start st p) gs' g'
    /\ List.concat gs' ++ g' = (List.concat gs ++ g) ++ [p].
Proof.
  intros Hp [Hpk Hc Hl Hne Hb Hgr].
  apply Z.leb_le in Hp. unfold messages_step.
  destruct (Z.ltb_spec MAX_PACKET_SIZE (curr_len st + len p)) as [Hover|Hfit].
  - exists (gs ++ [g]), [p]. split.
    + constructor; cbn [packets curr curr_len].
      * rewrite Hpk, map_app, Hc. reflexivity.
      * reflexivity.
      * symmetry. apply packet_of_single.
      * apply Forall_app. split; [exact Hne | repeat constructor; discriminate].
      * apply Forall_app. split; [exact Hb|]. repeat constructor.
        unfold bounded. rewrite packet_of_single. exact Hp.
      * apply greedy_close; [now rewrite <- Hl | exact Hgr].
    + rewrite concat_app. cbn [List.concat]. now rewrite app_nil_r.
  - exists gs, (g ++ [p]). split.
    + apply Forall_app in Hne as [Hne1 Hne2].
      apply Forall_app in Hb as [Hb1 Hb2].
      constructor; cbn [packets curr curr_len].
      * exact Hpk.
      * rewrite Hc. reflexivity.
      * rewrite packet_of_snoc. now rewrite Hl.
      * apply Forall_app. split; [exact Hne1|]. repeat constructor.
        destruct g; discriminate.
      * apply Forall_app. split; [exact Hb1|]. repeat constructor.
        unfold bounded. rewrite packet_of_snoc, <- Hl. exact Hfit.
      * apply greedy_grow; [now inversion Hne2 | exact Hgr].
    + now rewrite !app_assoc.
Qed.

Lemma messages_loop_inv (parts : list bytes) :
  forall st gs g,
    forallb fits parts = true -> pack_inv start st gs g ->
    exists gs' g',
      pack_inv start (fold_left (messages_step start) parts st) gs' g'
      /\ List.concat gs' ++ g' = (List.concat gs ++ g) ++ parts.
Proof.
  induction parts as [|p parts IH]; intros st gs g Hf Hinv.
  - exists gs, g. now rewrite app_nil_r.
  - cbn [forallb] in Hf. apply andb_prop in Hf as [Hp Hf].
    destruct (messages_step_inv st gs g p Hp Hinv) as (gs1 & g1 & Hinv1 & E1).
    destruct (IH _ gs1 g1 Hf Hinv1) as (gs2 & g2 & Hinv2 & E2).
    exists gs2, g2. split; [exact Hinv2|].
    cbn [fold_left]. rewrite E2, E1, <- !app_assoc. reflexivity.
Qed.

Lemma pack_parts_groups (parts : list bytes) :
  forallb fits parts = true ->
  exists groups,
    pack_parts start parts = map (packet_of start) groups
    /\ List.concat groups = parts
    /\ Forall (fun g => g <> []) groups
    /\ Forall bounded groups
    /\ greedy start groups.
Proof.
  destruct parts as [|p0 parts]; intros Hf.
  - exists []. repeat split; constructor.
  - cbn [forallb] in Hf. apply andb_prop in Hf as [Hp Hf].
    assert (Hinv : pack_inv start (messages_step start
                     {| packets := []; curr := [start]; curr_len := len start |} p0)
                     [] [p0]).
    { pose proof Hp as Hp'. apply Z.leb_le in Hp'. unfold messages_step.
      cbn [packets curr curr_len].
      destruct (Z.ltb_spec MAX_PACKET_SIZE (len start + len p0)); [lia|].
      constructor; cbn [packets curr curr_len app]; try reflexivity.
      - symmetry. apply packet_of_single.
      - repeat constructor. discriminate.
      - repeat constructor. unfold bounded. now rewrite packet_of_single. }
    destruct (messages_loop_inv parts _ [] [p0] Hf Hinv)
      as (gs & g & [Hpk Hc Hl Hne Hb Hgr] & E).
    exists (gs ++ [g]). unfold pack_parts. cbn [fold_left].
    repeat split; try assumption.
    + rewrite Hpk, Hc, map_app. reflexivity.
    + rewrite concat_app. cbn [List.concat]. rewrite app_nil_r. exact E.
Qed.

End Packing.

Lemma messages_unfold (now : float) (counts : list (string * pyval))
      (when : pyval) (host pi pn : string) :
  messages now counts when host pi pn =
  (start <- message_start now when host pi pn ;;
   parts <- mapM (fun nc => pack (Name (fst nc)) (snd nc)) counts ;;
   Ok (pack_parts start
         (filter (fun p => len start + len p <=? MAX_PACKET_SIZE) parts))).
Proof.
  unfold messages, pack_parts.
  destruct (message_start now when host pi pn) as [start|]; [|reflexivity].
  cbn [bind].
  destruct (mapM _ counts) as [parts|]; [|reflexivity].
  cbn [bind]. destruct (filter _ parts); reflexivity.
Qed.

Lemma forallb_filter {A : Type} (f : A -> bool) (l : list A) :
  forallb f (filter f l) = true.
Proof.
  induction l as [|a l IH]; [reflexivity|]. cbn [filter].
  destruct (f a) eqn:E; [cbn [forallb]; now rewrite E | exact IH].
Qed.

(** C2. Whatever the stats, the timestamp, the host and the plugin
    identity, every packet that [messages] returns is at most
    [MAX_PACKET_SIZE] = 1024 bytes long.  And it does return whenever
    the header and the fields can be encoded: the packets are then the
    header followed by consecutive, non-empty groups of the fields that
    fit, all of them in their order, each packet within the bound, a
    buffer being closed, and a new one seeded with the header and given
    the field, exactly where the field would have taken the buffer past
    the bound. *)
Theorem messages_bounded (now : float) (counts : list (string * pyval))
        (when : pyval) (host pi pn : string) :
  (forall pkts,
     messages now counts when host pi pn = Ok pkts ->
     Forall (fun p => len p <= MAX_PACKET_SIZE) pkts)
  /\ (forall start parts,
        message_start now when host pi pn = Ok start ->
        mapM (fun nc => pack (Name (fst nc)) (snd nc)) counts = Ok parts ->
        exists groups,
          messages now counts when host pi pn = Ok (map (packet_of start) groups)
          /\ List.concat groups
             = filter (fun p => len start + len p <=? MAX_PACKET_SIZE) parts
          /\ Forall (fun g => g <> []) groups
          /\ Forall (fun g => len (packet_of start g) <= MAX_PACKET_SIZE) groups
          /\ greedy start groups).
Proof.
  split.
  - intros pkts H. rewrite messages_unfold in H. bind_inv H. ok_inv H.
    destruct (pack_parts_groups x _ (forallb_filter _ x0))
      as (groups & Epk & _ & _ & Hb & _).
    rewrite Epk. apply Forall_map. exact Hb.
  - intros start parts Hs Hp. rewrite messages_unfold, Hs. cbn [bind].
    rewrite Hp. cbn [bind].
    destruct (pack_parts_groups start _ (forallb_filter _ parts))
      as (groups & Epk & Ecat & Hne & Hb & Hgr).
    exists groups. rewrite Epk. repeat split; assumption.
Qed.

(** [messages] does return when its arguments are what the sender hands
    it: an integer timestamp, names below the 16-bit length limit and the
    numbers of a snapshot. *)
Lemma struct_H_ok (z : Z) : 0 <= z <= 65535 -> struct_H z = Ok (be_bytes 2 z).
Proof.
  intros H. unfold struct_H.
  destruct (Z.leb_spec 0 z); [|lia]. destruct (Z.leb_spec z 65535); [|lia].
  reflexivity.
Qed.

Lemma pack_string_ok (c : Z) (s : string) :
  0 <= c <= 65535 -> Z.of_nat (String.length s) <= 65530 ->
  exists b, pack_string c (PyStr s) = Ok b.
Proof.
  intros Hc Hs. unfold pack_string.
  rewrite (struct_H_ok c Hc), (struct_H_ok (5 + Z.of_nat (String.length s))) by lia.
  cbn [bind]. eauto.
Qed.

Lemma struct_d_le_ok (v : pyval) :
  is_int_or_float v = true -> exists b, struct_d_le v = Ok b.
Proof. destruct v; try discriminate; intros _; cbn; eauto. Qed.

Lemma pack_value_ok (name : string) (v : pyval) :
  Z.of_nat (String.length name) <= 65530 -> is_int_or_float v = true ->
  exists b, pack_value name v = Ok b.
Proof.
  intros Hn Hv. unfold pack_value.
  change (pack_code TYPE_TYPE_INSTANCE (PyStr name))
    with (pack_string TYPE_TYPE_INSTANCE (PyStr name)).
  destruct (pack_string_ok TYPE_TYPE_INSTANCE name) as [a ->];
    [unfold TYPE_TYPE_INSTANCE; lia | exact Hn |].
  destruct (struct_d_le_ok v Hv) as [d ->].
  cbn. eauto.
Qed.

Lemma mapM_ok {A B : Type} (f : A -> result B) (l : list A) :
  Forall (fun a => exists b, f a = Ok b) l -> exists bs, mapM f l = Ok bs.
Proof.
  induction 1 as [|a l [b Hb] _ [bs IH]]; cbn [mapM]; [eauto|].
  rewrite Hb, IH. cbn. eauto.
Qed.

Lemma message_start_ok (now : float) (w : Z) (host pi pn : string) :
  0 < w < 2 ^ 63 ->
  Z.of_nat (String.length host) <= 65530 ->
  Z.of_nat (String.length pi) <= 65530 ->
  Z.of_nat (String.length pn) <= 65530 ->
  exists start, message_start now (PyInt w) host pi pn = Ok start.
Proof.
  intros Hw Hh Hi Hn. unfold message_start.
  assert (Ht : py_truthy (PyInt w) = true).
  { cbn. destruct (Z.eqb_spec w 0); [lia | reflexivity]. }
  rewrite Ht.
  change (pack (Code TYPE_HOST) (PyStr host))
    with (pack_string TYPE_HOST (PyStr host)).
  change (pack (Code TYPE_PLUGIN) (PyStr pn))
    with (pack_string TYPE_PLUGIN (PyStr pn)).
  change (pack (Code TYPE_PLUGIN_INSTANCE) (PyStr pi))
    with (pack_string TYPE_PLUGIN_INSTANCE (PyStr pi)).
  change (pack (Code TYPE_TIME) (PyInt w)) with (pack_numeric TYPE_TIME (PyInt w)).
  destruct (pack_string_ok TYPE_HOST host) as [a ->]; [cbv; intuition discriminate | exact Hh |].
  destruct (pack_string_ok TYPE_PLUGIN pn) as [c ->]; [cbv; intuition discriminate | exact Hn |].
  destruct (pack_string_ok TYPE_PLUGIN_INSTANCE pi) as [d ->]; [cbv; intuition discriminate | exact Hi |].
  assert (Hq : exists b, pack_numeric TYPE_TIME (PyInt w) = Ok b).
  { unfold pack_numeric.
    rewrite (struct_H_ok TYPE_TIME), (struct_H_ok 12) by (unfold TYPE_TIME; lia).
    unfold struct_q. cbn [bind].
    destruct (Z.leb_spec (- 2 ^ 63) w); [|lia].
    destruct (Z.ltb_spec w (2 ^ 63)); [|lia]. cbn [andb bind]. eauto. }
  destruct Hq as [b ->]. cbn. eauto.
Qed.

Lemma messages_returns (now : float) (counts : list (string * pyval))
      (w : Z) (host pi pn : string) :
  0 < w < 2 ^ 63 ->
  Z.of_nat (String.length host) <= 65530 ->
  Z.of_nat (String.length pi) <= 65530 ->
  Z.of_nat (String.length pn) <= 65530 ->
  Forall (fun nc => Z.of_nat (String.length (fst nc)) <= 65530
                    /\ is_int_or_float (snd nc) = true) counts ->
  exists pkts, messages now counts (PyInt w) host pi pn = Ok pkts.
Proof.
  intros Hw Hh Hi Hn Hc. rewrite messages_unfold.
  destruct (message_start_ok now w host pi pn Hw Hh Hi Hn) as [start ->].
  cbn [bind].
  destruct (mapM_ok (fun nc => pack (Name (fst nc)) (snd nc)) counts) as [parts ->].
  { eapply Forall_impl; [|exact Hc]. intros [n v] [H1 H2]. now apply pack_value_ok. }
  cbn. eauto.
Qed.

(** Three fields of 420 bytes behind a header of 61: the first two share
    a packet, the third would take it to 1321 bytes and opens the
    second. *)
Lemma messages_bounded_witness :
  exists groups,
    List.length groups = 2%nat
    /\ messages 0%float
         [(repeat_char "a" 400, PyInt 1); (repeat_char "b" 400, PyInt 2);
          (repeat_char "c" 400, PyInt 3)]
         (PyInt 1) "localhost" "" "any"
       = Ok (map (packet_of
                    (value_or [] (message_start 0%float (PyInt 1) "localhost" "" "any")))
                 groups)
    /\ Forall (fun g => g <> []) groups
    /\ Forall (fun g =>
                 len (packet_of
                        (value_or []
                           (message_start 0%float (PyInt 1) "localhost" "" "any")) g)
                 <= MAX_PACKET_SIZE) groups
    /\ greedy (value_or [] (message_start 0%float (PyInt 1) "localhost" "" "any"))
              groups.
Proof.
  destruct (proj2 (messages_bounded 0%float
                     [(repeat_char "a" 400, PyInt 1); (repeat_char "b" 400, PyInt 2);
                      (repeat_char "c" 400, PyInt 3)]
                     (PyInt 1) "localhost" "" "any")
                  (value_or [] (message_start 0%float (PyInt 1) "localhost" "" "any"))
                  (value_or []
                     (mapM (fun nc => pack (Name (fst nc)) (snd nc))
                        [(repeat_char "a" 400, PyInt 1);
                         (repeat_char "b" 400, PyInt 2);
                         (repeat_char "c" 400, PyInt 3)])))
    as (groups & Hm & _ & Hne & Hb & Hg).
  - vm_compute. reflexivity.
  - vm_compute. reflexivity.
  - exists groups. split; [|repeat split; assumption].
    assert (L : List.length
                  (value_or []
                     (messages 0%float
                        [(repeat_char "a" 400, PyInt 1);
                         (repeat_char "b" 400, PyInt 2);
                         (repeat_char "c" 400, PyInt 3)]
                        (PyInt 1) "localhost" "" "any")) = 2%nat)
      by (vm_compute; reflexivity).
    rewrite Hm in L. cbn [value_or] in L. now rewrite length_map in L.
Defined.

(* ===================================================================== *)
(** * Oversize fields and half-size fields                                *)
(* ===================================================================== *)

Lemma pack_parts_one (start a : bytes) :
  len start + len a <= MAX_PACKET_SIZE ->
  pack_parts start [a] = [start ++ a].
Proof.
  intros Ha. unfold pack_parts, messages_step. cbn [fold_left curr_len].
  destruct (Z.ltb_spec MAX_PACKET_SIZE (len start + len a)); [lia|].
  cbn. now rewrite app_nil_r.
Qed.

Lemma pack_parts_two (start a b : bytes) :
  len start + len a <= MAX_PACKET_SIZE ->
  MAX_PACKET_SIZE < len start + len a + len b ->
  pack_parts start [a; b] = [start ++ a; start ++ b].
Proof.
  intros Ha Hab. unfold pack_parts, messages_step. cbn [fold_left curr_len].
  destruct (Z.ltb_spec MAX_PACKET_SIZE (len start + len a)); [lia|].
  cbn [curr_len packets curr].
  destruct (Z.ltb_spec MAX_PACKET_SIZE (len start + len a + len b)); [|lia].
  cbn. now rewrite !app_nil_r.
Qed.

Lemma fitting_parts_filter (start : bytes) (counts : list (string * pyval)) :
  let f := fun nc : string * pyval => pack (Name (fst nc)) (snd nc) in
  let fit := fun p => len start + len p <=? MAX_PACKET_SIZE in
  (parts <- mapM f counts ;; Ok (filter fit parts)) =
  (parts <- mapM f (filter (fun nc => match f nc with
                                      | Ok p => fit p
                                      | Raise _ => true
                                      end) counts) ;;
   Ok (filter fit parts)).
Proof.
  intros f fit. induction counts as [|nc counts IH]; [reflexivity|].
  cbn [filter mapM].
  destruct (f nc) as [p|e] eqn:Ep; cbn [bind].
  - destruct (fit p) eqn:Hfit; cbn [mapM]; [rewrite Ep; cbn [bind]|];
      destruct (mapM f counts) as [ps|];
      destruct (mapM f (filter _ counts)) as [qs|];
      cbn [bind filter] in *; rewrite ?Hfit; congruence.
  - cbn [mapM]. rewrite Ep. reflexivity.
Qed.

(** Dropping is the same as never having been in the map: [messages]
    gives the same answer with the entries removed whose field cannot
    share a packet with the header. *)
Lemma messages_drops_oversize (now : float) (counts : list (string * pyval))
      (when : pyval) (host pi pn : string) (start : bytes) :
  message_start now when host pi pn = Ok start ->
  messages now counts when host pi pn =
  messages now
    (filter (fun nc => match pack (Name (fst nc)) (snd nc) with
                       | Ok p => len start + len p <=? MAX_PACKET_SIZE
                       | Raise _ => true
                       end) counts)
    when host pi pn.
Proof.
  intros Hs. rewrite !messages_unfold, Hs. cbn [bind].
  pose proof (fitting_parts_filter start counts) as H. cbv zeta in H.
  destruct (mapM _ counts) as [ps|]; destruct (mapM _ (filter _ counts)) as [qs|];
    cbn [bind] in *; congruence.
Qed.

(** C3. A field that cannot share a packet with the header is dropped
    without an error: alone in the map it leaves no packet at all, and
    next to one small entry that fits, in either order, it leaves the
    single packet made of the header and the small field.  In any map
    such entries might as well be absent. *)
Theorem oversize_dropped (now : float) (when : pyval) (host pi pn : string)
        (big small : string) (vbig vsmall : pyval) (start fbig fsmall : bytes) :
  message_start now when host pi pn = Ok start ->
  pack (Name big) vbig = Ok fbig ->
  pack (Name small) vsmall = Ok fsmall ->
  MAX_PACKET_SIZE < len start + len fbig ->
  len start + len fsmall <= MAX_PACKET_SIZE ->
  messages now [(big, vbig)] when host pi pn = Ok []
  /\ messages now [(big, vbig); (small, vsmall)] when host pi pn
     = Ok [start ++ fsmall]
  /\ messages now [(small, vsmall); (big, vbig)] when host pi pn
     = Ok [start ++ fsmall]
  /\ (forall counts,
        messages now counts when host pi pn =
        messages now
          (filter (fun nc => match pack (Name (fst nc)) (snd nc) with
                             | Ok p => len start + len p <=? MAX_PACKET_SIZE
                             | Raise _ => true
                             end) counts)
          when host pi pn).
Proof.
  intros Hs Hb Hsm Hover Hfit.
  assert (Fb : (len start + len fbig <=? MAX_PACKET_SIZE) = false)
    by (apply Z.leb_gt; exact Hover).
  assert (Fs : (len start + len fsmall <=? MAX_PACKET_SIZE) = true)
    by (apply Z.leb_le; exact Hfit).
  split; [|split; [|split]].
  - rewrite messages_unfold, Hs. cbn [bind mapM fst snd].
    rewrite Hb. cbn [bind filter]. now rewrite Fb.
  - rewrite messages_unfold, Hs. cbn [bind mapM fst snd].
    rewrite Hb, Hsm. cbn [bind filter]. rewrite Fb, Fs.
    now rewrite (pack_parts_one start fsmall Hfit).
  - rewrite messages_unfold, Hs. cbn [bind mapM fst snd].
    rewrite Hb, Hsm. cbn [bind filter]. rewrite Fb, Fs.
    now rewrite (pack_parts_one start fsmall Hfit).
  - intros counts. now apply messages_drops_oversize.
Qed.

Lemma oversize_dropped_witness :
  let hdr := value_or [] (message_start 0%float (PyInt 1) "localhost" "" "any") in
  let fY := value_or [] (pack (Name "Y") (PyInt 2)) in
  messages 0%float [(repeat_char "X" 1024, PyInt 1)]
           (PyInt 1) "localhost" "" "any" = Ok []
  /\ messages 0%float [(repeat_char "X" 1024, PyInt 1); ("Y"%string, PyInt 2)]
              (PyInt 1) "localhost" "" "any" = Ok [hdr ++ fY]
  /\ messages 0%float [("Y"%string, PyInt 2); (repeat_char "X" 1024, PyInt 1)]
              (PyInt 1) "localhost" "" "any" = Ok [hdr ++ fY]
  /\ (forall counts,
        messages 0%float counts (PyInt 1) "localhost" "" "any" =
        messages 0%float
          (filter (fun nc => match pack (Name (fst nc)) (snd nc) with
                             | Ok p => len hdr + len p <=? MAX_PACKET_SIZE
                             | Raise _ => true
                             end) counts)
          (PyInt 1) "localhost" "" "any").
Proof.
  intros hdr fY.
  apply (oversize_dropped 0%float (PyInt 1) "localhost" "" "any"
           (repeat_char "X" 1024) "Y" (PyInt 1) (PyInt 2) hdr
           (value_or [] (pack (Name (repeat_char "X" 1024)) (PyInt 1))) fY);
    [ vm_compute; reflexivity | vm_compute; reflexivity | vm_compute; reflexivity
    | vm_compute; reflexivity | vm_compute; intros H; discriminate H ].
Defined.

(** C4, as amended. Two entries with names of 512 characters, behind a
    header that can be encoded: when the header leaves room for one such
    field, that is when host, plugin instance and plugin name hold at
    most 443 bytes together, [messages] returns two packets, the header
    followed by the first field and the header followed by the second;
    behind a longer header both fields are oversize and it returns no
    packet.  When the header cannot be encoded, [messages] raises the
    error of the header. *)
Theorem two_half_size_entries (now : float) (when : pyval) (host pi pn : string)
        (x y : string) (vx vy : pyval) (fx fy : bytes) :
  String.length x = 512%nat ->
  String.length y = 512%nat ->
  pack (Name x) vx = Ok fx ->
  pack (Name y) vy = Ok fy ->
  (forall start,
     message_start now when host pi pn = Ok start ->
     messages now [(x, vx); (y, vy)] when host pi pn
     = Ok (if (String.length host + String.length pi + String.length pn <=? 443)%nat
           then [start ++ fx; start ++ fy]
           else []))
  /\ (forall e,
        message_start now when host pi pn = Raise e ->
        messages now [(x, vx); (y, vy)] when host pi pn = Raise e).
Proof.
  intros Hx Hy Hfx Hfy. split.
  - intros start Hs.
    pose proof (message_start_len _ _ _ _ _ _ Hs) as Ls.
    pose proof (pack_value_len _ _ _ Hfx) as Lx.
    pose proof (pack_value_len _ _ _ Hfy) as Ly.
    rewrite Hx in Lx. rewrite Hy in Ly.
    change (Z.of_nat 512) with 512 in *.
    rewrite messages_unfold, Hs. cbn [bind mapM fst snd].
    rewrite Hfx, Hfy. cbn [bind filter].
    destruct (Nat.leb_spec (String.length host + String.length pi + String.length pn)
                           443) as [Hhdr|Hhdr].
    + replace (len start + len fx <=? MAX_PACKET_SIZE) with true
        by (symmetry; apply Z.leb_le; unfold MAX_PACKET_SIZE; lia).
      replace (len start + len fy <=? MAX_PACKET_SIZE) with true
        by (symmetry; apply Z.leb_le; unfold MAX_PACKET_SIZE; lia).
      rewrite pack_parts_two by (unfold MAX_PACKET_SIZE; lia).
      reflexivity.
    + replace (len start + len fx <=? MAX_PACKET_SIZE) with false
        by (symmetry; apply Z.leb_gt; unfold MAX_PACKET_SIZE; lia).
      replace (len start + len fy <=? MAX_PACKET_SIZE) with false
        by (symmetry; apply Z.leb_gt; unfold MAX_PACKET_SIZE; lia).
      reflexivity.
  - intros e He. rewrite messages_unfold, He. reflexivity.
Qed.

Lemma two_half_size_entries_witness :
  messages 0%float
    [(repeat_char "X" 512, PyInt 6); (repeat_char "Y" 512, PyInt 7)]
    (PyInt 1) "localhost" "" "any"
  = Ok [ value_or [] (message_start 0%float (PyInt 1) "localhost" "" "any")
           ++ value_or [] (pack (Name (repeat_char "X" 512)) (PyInt 6));
         value_or [] (message_start 0%float (PyInt 1) "localhost" "" "any")
           ++ value_or [] (pack (Name (repeat_char "Y" 512)) (PyInt 7)) ]
  /\ messages 0%float
       [(repeat_char "X" 512, PyInt 6); (repeat_char "Y" 512, PyInt 7)]
       (PyInt 1) (repeat_char "h" 441) "" "any"
     = Ok []
  /\ messages 0%float
       [(repeat_char "X" 512, PyInt 6); (repeat_char "Y" 512, PyInt 7)]
       (PyInt 1) (repeat_char "h" (256 * 256)) "" "any"
     = Raise StructError.
Proof.
  split; [|split].
  - apply (proj1 (two_half_size_entries 0%float (PyInt 1) "localhost" "" "any"
                    (repeat_char "X" 512) (repeat_char "Y" 512) (PyInt 6) (PyInt 7)
                    (value_or [] (pack (Name (repeat_char "X" 512)) (PyInt 6)))
                    (value_or [] (pack (Name (repeat_char "Y" 512)) (PyInt 7)))
                    ltac:(vm_compute; reflexivity) ltac:(vm_compute; reflexivity)
                    ltac:(vm_compute; reflexivity) ltac:(vm_compute; reflexivity))
                 (value_or [] (message_start 0%float (PyInt 1) "localhost" "" "any"))).
    vm_compute. reflexivity.
  - apply (proj1 (two_half_size_entries 0%float (PyInt 1) (repeat_char "h" 441) "" "any"
                    (repeat_char "X" 512) (repeat_char "Y" 512) (PyInt 6) (PyInt 7)
                    (value_or [] (pack (Name (repeat_char "X" 512)) (PyInt 6)))
                    (value_or [] (pack (Name (repeat_char "Y" 512)) (PyInt 7)))
                    ltac:(vm_compute; reflexivity) ltac:(vm_compute; reflexivity)
                    ltac:(vm_compute; reflexivity) ltac:(vm_compute; reflexivity))
                 (value_or []
                    (message_start 0%float (PyInt 1) (repeat_char "h" 441) "" "any"))).
    vm_compute. reflexivity.
  - apply (proj2 (two_half_size_entries 0%float (PyInt 1) (repeat_char "h" (256 * 256)) "" "any"
                    (repeat_char "X" 512) (repeat_char "Y" 512) (PyInt 6) (PyInt 7)
                    (value_or [] (pack (Name (repeat_char "X" 512)) (PyInt 6)))
                    (value_or [] (pack (Name (repeat_char "Y" 512)) (PyInt 7)))
                    ltac:(vm_compute; reflexivity) ltac:(vm_compute; reflexivity)
                    ltac:(vm_compute; reflexivity) ltac:(vm_compute; reflexivity))).
    vm_compute. reflexivity.
Defined.

(** Against C4 as stated: behind a header made long by a host name of 441
    characters neither half-size field fits, and no packet is returned. *)
Lemma two_half_size_entries_counterexample :
  String.length (repeat_char "X" 512) = 512%nat
  /\ String.length (repeat_char "Y" 512) = 512%nat
  /\ messages 0%float
       [(repeat_char "X" 512, PyInt 6); (repeat_char "Y" 512, PyInt 7)]
       (PyInt 1) (repeat_char "h" 441) "" "any"
     = Ok [].
Proof. repeat split; vm_compute; reflexivity. Qed.

(* ===================================================================== *)
(** * Dictionaries                                                        *)
(* ===================================================================== *)

Section DictFacts.

Context {K V : Type}.
Variable eqb : K -> K -> bool.
Hypothesis eqb_spec : forall a b, reflect (a = b) (eqb a b).

Lemma dict_get_set_same (d : list (K * V)) (k : K) (v : V) :
  dict_get eqb (dict_set eqb d k v) k = Some v.
Proof.
  induction d as [|[k' v'] d IH]; cbn.
  - destruct (eqb_spec k k); [reflexivity | contradiction].
  - destruct (eqb_spec k' k) as [->|Hne]; cbn.
    + destruct (eqb_spec k k); [reflexivity | contradiction].
    + destruct (eqb_spec k' k); [contradiction | exact IH].
Qed.

Lemma dict_get_set_other (d : list (K * V)) (k k' : K) (v : V) :
  k <> k' -> dict_get eqb (dict_set eqb d k v) k' = dict_get eqb d k'.
Proof.
  intros Hne. induction d as [|[k0 v0] d IH]; cbn.
  - destruct (eqb_spec k k'); [contradiction | reflexivity].
  - destruct (eqb_spec k0 k) as [->|Hk]; cbn.
    + destruct (eqb_spec k k'); [contradiction | reflexivity].
    + destruct (eqb_spec k0 k'); [reflexivity | exact IH].
Qed.

Lemma dict_get_none (d : list (K * V)) (k : K) :
  dict_get eqb d k = None <-> ~ In k (keys d).
Proof.
  induction d as [|[k' v'] d IH]; cbn; [tauto|].
  destruct (eqb_spec k' k) as [->|Hne].
  - split; [discriminate | intros H; exfalso; apply H; now left].
  - rewrite IH. tauto.
Qed.

Lemma dict_get_some_in (d : list (K * V)) (k : K) (v : V) :
  dict_get eqb d k = Some v -> In k (keys d).
Proof.
  intros H. destruct (in_dec (fun a b => reflect_dec _ _ (eqb_spec a b)) k (keys d))
    as [Hin|Hout]; [exact Hin|].
  apply dict_get_none in Hout. congruence.
Qed.

Lemma keys_dict_set (d : list (K * V)) (k : K) (v : V) :
  keys (dict_set eqb d k v) =
  match dict_get eqb d k with
  | Some _ => keys d
  | None => keys d ++ [k]
  end.
Proof.
  unfold keys. induction d as [|[k' v'] d IH]; cbn; [reflexivity|].
  destruct (eqb_spec k' k) as [->|Hne]; cbn; [reflexivity|].
  rewrite IH. destruct (dict_get eqb d k); reflexivity.
Qed.


Lemma dict_get_app_out (a b : list (K * V)) (k : K) :
  ~ In k (keys a) -> dict_get eqb (a ++ b) k = dict_get eqb b k.
Proof.
  induction a as [|[k' v'] a IH]; cbn; [reflexivity|]. intros H.
  destruct (eqb_spec k' k) as [->|Hne]; [exfalso; apply H; now left|].
  apply IH. tauto.
Qed.

Lemma dict_set_app_out (a b : list (K * V)) (k : K) (v : V) :
  ~ In k (keys a) -> dict_set eqb (a ++ b) k v = a ++ dict_set eqb b k v.
Proof.
  induction a as [|[k' v'] a IH]; cbn; [reflexivity|]. intros H.
  destruct (eqb_spec k' k) as [->|Hne]; [exfalso; apply H; now left|].
  f_equal. apply IH. tauto.
Qed.

Lemma dict_get_head (d : list (K * V)) (k : K) (v : V) :
  dict_get eqb ((k, v) :: d) k = Some v.
Proof. cbn. destruct (eqb_spec k k); [reflexivity | contradiction]. Qed.

Lemma dict_set_head (d : list (K * V)) (k : K) (v v' : V) :
  dict_set eqb ((k, v) :: d) k v' = (k, v') :: d.
Proof. cbn. destruct (eqb_spec k k); [reflexivity | contradiction]. Qed.

(** In a dictionary the entries are the bindings. *)
Lemma dict_get_in (d : list (K * V)) (k : K) (v : V) :
  NoDup (keys d) -> (dict_get eqb d k = Some v <-> In (k, v) d).
Proof.
  induction d as [|[k' v'] d IH]; cbn; intros Hnd.
  - split; [discriminate | contradiction].
  - inversion Hnd as [|? ? Hout Hnd']; subst.
    destruct (eqb_spec k' k) as [->|Hne].
    + split.
      * intros H. injection H as ->. now left.
      * intros [H|H]; [congruence|].
        exfalso. apply Hout. change k with (fst (k, v)). now apply in_map.
    + rewrite (IH Hnd'). split; [tauto|]. intros [H|H]; [congruence | exact H].
Qed.


Lemma dict_set_entries (Q : K * V -> Prop) (d : list (K * V)) (k : K) (v : V) :
  Forall Q d -> (forall k', Q (k', v)) -> Forall Q (dict_set eqb d k v).
Proof.
  intros Hd Hv. induction Hd as [|[k' v'] d Hx Hd IH]; cbn.
  - repeat constructor. apply Hv.
  - destruct (eqb k' k); constructor; auto.
Qed.



End DictFacts.

(* ===================================================================== *)
(** * The registry of connections                                         *)
(* ===================================================================== *)

Lemma ident_eqb_spec (a b : ident) : reflect (a = b) (ident_eqb a b).
Proof.
  destruct a as [[[[h1 c1] p1] i1] n1], b as [[[[h2 c2] p2] i2] n2].
  unfold ident_eqb.
  destruct (String.eqb_spec h1 h2); [|right; congruence].
  destruct (String.eqb_spec c1 c2); [|right; congruence].
  destruct (Z.eqb_spec p1 p2); [|right; congruence].
  destruct (String.eqb_spec i1 i2); [|right; congruence].
  destruct (String.eqb_spec n1 n2); [|right; congruence].
  left. congruence.
Qed.

Lemma heap_set_length (h : list conn_obj) (r : ref) (o : conn_obj) :
  List.length (heap_set h r o) = List.length h.
Proof.
  revert r. induction h as [|x h IH]; intros [|r]; cbn; auto.
Qed.

Lemma heap_set_same (h : list conn_obj) (r : ref) (o : conn_obj) :
  (r < List.length h)%nat -> nth_error (heap_set h r o) r = Some o.
Proof.
  revert r. induction h as [|x h IH]; intros [|r] H; cbn in *; try lia; auto.
  apply IH. lia.
Qed.

Lemma heap_set_other (h : list conn_obj) (r r' : ref) (o : conn_obj) :
  r <> r' -> nth_error (heap_set h r o) r' = nth_error h r'.
Proof.
  revert r r'. induction h as [|x h IH]; intros [|r] [|r'] H; cbn; auto.
  contradiction.
Qed.

(** Overwriting an initialised instance by an initialised instance keeps
    every address initialised. *)
Lemma heap_set_initialised (h : list conn_obj) (self r : ref) (d0 d d' : conn_dict) :
  nth_error h self = Some (Some d0) ->
  nth_error h r = Some (Some d) ->
  exists d1, nth_error (heap_set h self (Some d')) r = Some (Some d1).
Proof.
  intros Hs Hr. destruct (Nat.eq_dec self r) as [->|Hne].
  - rewrite heap_set_same; [eauto|]. apply nth_error_Some. congruence.
  - rewrite heap_set_other by exact Hne. eauto.
Qed.

(** [__init__] on an instance that has its [_counters] does nothing,
    whatever the arguments. *)
Lemma Connection_init_skipped (self : ref) (id : ident) (w : world) (d : conn_dict) :
  nth_error (heap w) self = Some (Some d) -> Connection_init self id w = w.
Proof.
  intros H. unfold Connection_init.
  destruct id as [[[[h c] p] i] n]. rewrite H. reflexivity.
Qed.

Lemma Connection_found (id : ident) (w : world) (r : ref) :
  world_ok w -> dict_get ident_eqb (instances w) id = Some r ->
  Connection id w = (w, r).
Proof.
  intros [Hinit _] Hget. unfold Connection, Connection_new. rewrite Hget.
  destruct (Hinit id r Hget) as [d Hd].
  now rewrite (Connection_init_skipped r id w d Hd).
Qed.

Lemma Connection_fresh (id : ident) (w : world) :
  dict_get ident_eqb (instances w) id = None ->
  exists d,
    Connection id w =
    ({| heap := heap w ++ [Some d];
        instances := dict_set ident_eqb (instances w) id (List.length (heap w)) |},
     List.length (heap w)).
Proof.
  intros Hget. unfold Connection, Connection_new, object_new. rewrite Hget.
  cbn [heap instances]. unfold Connection_init.
  destruct id as [[[[h c] p] i] n]. cbn [heap instances].
  rewrite nth_error_app2, Nat.sub_diag by lia. cbn [nth_error].
  eexists. f_equal. f_equal.
  clear. induction (heap w) as [|x l IH]; cbn; [reflexivity | now rewrite IH].
Qed.

Lemma registered_in_heap (w : world) (id : ident) (r : ref) :
  world_ok w -> dict_get ident_eqb (instances w) id = Some r ->
  (r < List.length (heap w))%nat.
Proof.
  intros [Hinit _] Hget. destruct (Hinit id r Hget) as [d Hd].
  apply nth_error_Some. congruence.
Qed.

Lemma Connection_ok (id : ident) (w : world) :
  world_ok w -> world_ok (fst (Connection id w)).
Proof.
  intros Hok. destruct (dict_get ident_eqb (instances w) id) as [r|] eqn:Hget.
  - now rewrite (Connection_found id w r Hok Hget).
  - destruct (Connection_fresh id w Hget) as [d ->]. cbn [fst].
    pose proof Hok as [Hinit Hinj]. split; cbn [heap instances].
    + intros id' r' H. destruct (ident_eqb_spec id id') as [<-|Hne].
      * rewrite (dict_get_set_same _ ident_eqb_spec) in H. injection H as <-.
        rewrite nth_error_app2, Nat.sub_diag by lia. cbn. eauto.
      * rewrite (dict_get_set_other _ ident_eqb_spec) in H by exact Hne.
        destruct (Hinit id' r' H) as [d' Hd']. exists d'.
        rewrite nth_error_app1; [exact Hd'|]. apply nth_error_Some. congruence.
    + intros id1 id2 r H1 H2.
      destruct (ident_eqb_spec id id1) as [<-|N1];
        destruct (ident_eqb_spec id id2) as [<-|N2]; [reflexivity | | |].
      * rewrite (dict_get_set_same _ ident_eqb_spec) in H1. injection H1 as <-.
        rewrite (dict_get_set_other _ ident_eqb_spec) in H2 by exact N2.
        pose proof (registered_in_heap w id2 _ Hok H2). lia.
      * rewrite (dict_get_set_same _ ident_eqb_spec) in H2. injection H2 as <-.
        rewrite (dict_get_set_other _ ident_eqb_spec) in H1 by exact N1.
        pose proof (registered_in_heap w id1 _ Hok H1). lia.
      * rewrite (dict_get_set_other _ ident_eqb_spec) in H1 by exact N1.
        rewrite (dict_get_set_other _ ident_eqb_spec) in H2 by exact N2.
        eauto.
Qed.

(** The operations on counters write to the heap only, and only an
    initialised instance over an initialised instance. *)
Lemma heap_update_ok (w : world) (self : ref) (d0 d' : conn_dict) :
  world_ok w -> nth_error (heap w) self = Some (Some d0) ->
  world_ok {| heap := heap_set (heap w) self (Some d'); instances := instances w |}.
Proof.
  intros [Hinit Hinj] Hs. split; cbn [heap instances]; [|exact Hinj].
  intros id r H. destruct (Hinit id r H) as [d Hd].
  eapply heap_set_initialised; eassumption.
Qed.

Lemma on_counter_ok {A : Type} (self : ref) (name : string) (m : method Counter A)
      (w : world) :
  world_ok w -> world_ok (fst (on_counter self name m w)).
Proof.
  intros Hok. unfold on_counter.
  destruct (class_attribute name); [exact Hok|].
  destruct (nth_error (heap w) self) as [[d|]|] eqn:Hs; try exact Hok.
  destruct (Connection_getattr name d) as [d1 [c|e]]; [|exact Hok].
  destruct (m c) as [c' r]. cbn [fst]. eapply heap_update_ok; eassumption.
Qed.

Lemma on_counter_instances {A : Type} (self : ref) (name : string)
      (m : method Counter A) (w : world) :
  instances (fst (on_counter self name m w)) = instances w.
Proof.
  unfold on_counter.
  destruct (class_attribute name); [reflexivity|].
  destruct (nth_error (heap w) self) as [[d|]|]; try reflexivity.
  destruct (Connection_getattr name d) as [d1 [c|e]]; [|reflexivity].
  destruct (m c). reflexivity.
Qed.

Lemma Connection_snapshot_ok (self : ref) (w : world) :
  world_ok w -> world_ok (fst (Connection_snapshot self w)).
Proof.
  intros Hok. unfold Connection_snapshot.
  destruct (nth_error (heap w) self) as [[d|]|] eqn:Hs; try exact Hok.
  destruct (snapshot_counters (_counters d)) as [cs snaps]. cbn [fst].
  eapply heap_update_ok; eassumption.
Qed.

Lemma Connection_snapshot_instances (self : ref) (w : world) :
  instances (fst (Connection_snapshot self w)) = instances w.
Proof.
  unfold Connection_snapshot.
  destruct (nth_error (heap w) self) as [[d|]|]; try reflexivity.
  destruct (snapshot_counters (_counters d)). reflexivity.
Qed.

Lemma run_op_ok (w : world) (o : op) : world_ok w -> world_ok (run_op w o).
Proof.
  intros Hok. destruct o; cbn [run_op].
  - now apply Connection_ok.
  - now apply on_counter_ok.
  - now apply on_counter_ok.
  - now apply Connection_snapshot_ok.
Qed.

Lemma run_ops_ok (ops : list op) :
  forall w, world_ok w -> world_ok (run_ops w ops).
Proof.
  induction ops as [|o ops IH]; intros w Hok; [exact Hok|].
  apply IH, run_op_ok, Hok.
Qed.

Lemma world_init_ok : world_ok world_init.
Proof. split; cbn; intros; discriminate. Qed.

(** The registry only grows: a registered identity keeps its instance. *)
Lemma run_op_keeps (w : world) (o : op) (id : ident) (r : ref) :
  world_ok w ->
  dict_get ident_eqb (instances w) id = Some r ->
  dict_get ident_eqb (instances (run_op w o)) id = Some r.
Proof.
  intros Hok Hget. destruct o as [id'| | |]; cbn [run_op].
  - destruct (dict_get ident_eqb (instances w) id') as [r'|] eqn:Hget'.
    + now rewrite (Connection_found id' w r' Hok Hget').
    + destruct (Connection_fresh id' w Hget') as [d ->]. cbn [fst instances].
      rewrite (dict_get_set_other _ ident_eqb_spec); [exact Hget|].
      intros <-. congruence.
  - now rewrite on_counter_instances.
  - now rewrite on_counter_instances.
  - now rewrite Connection_snapshot_instances.
Qed.

Lemma run_ops_keeps (ops : list op) (id : ident) (r : ref) :
  forall w, world_ok w ->
  dict_get ident_eqb (instances w) id = Some r ->
  dict_get ident_eqb (instances (run_ops w ops)) id = Some r.
Proof.
  induction ops as [|o ops IH]; intros w Hok Hget; [exact Hget|].
  apply IH; [now apply run_op_ok | now apply run_op_keeps].
Qed.

Lemma Connection_registers (id : ident) (w : world) :
  world_ok w ->
  dict_get ident_eqb (instances (fst (Connection id w))) id
  = Some (snd (Connection id w)).
Proof.
  intros Hok. destruct (dict_get ident_eqb (instances w) id) as [r|] eqn:Hget.
  - now rewrite (Connection_found id w r Hok Hget).
  - destruct (Connection_fresh id w Hget) as [d ->]. cbn [fst snd instances].
    apply (dict_get_set_same _ ident_eqb_spec).
Qed.

(** C7. Two constructions of [Connection], whatever happened in the
    process before the first and between the two, return the same object
    if and only if their identity tuples are equal. *)
Theorem connection_identity (before between : list op) (id1 id2 : ident) :
  let w0 := run_ops world_init before in
  let w1 := fst (Connection id1 w0) in
  let c1 := snd (Connection id1 w0) in
  let c2 := snd (Connection id2 (run_ops w1 between)) in
  c1 = c2 <-> id1 = id2.
Proof.
  intros w0 w1 c1 c2.
  assert (Hok0 : world_ok w0) by apply run_ops_ok, world_init_ok.
  assert (Hok1 : world_ok w1) by apply Connection_ok, Hok0.
  assert (Hreg : dict_get ident_eqb (instances w1) id1 = Some c1)
    by apply Connection_registers, Hok0.
  set (w2 := run_ops w1 between) in *.
  assert (Hok2 : world_ok w2) by apply run_ops_ok, Hok1.
  assert (Hreg2 : dict_get ident_eqb (instances w2) id1 = Some c1)
    by (apply run_ops_keeps; assumption).
  subst c2. split.
  - intros Heq.
    destruct (dict_get ident_eqb (instances w2) id2) as [r|] eqn:Hget.
    + rewrite (Connection_found id2 w2 r Hok2 Hget) in Heq. cbn [snd] in Heq.
      subst r. destruct Hok2 as [_ Hinj]. eapply Hinj; eassumption.
    + destruct (Connection_fresh id2 w2 Hget) as [d E]. rewrite E in Heq.
      cbn [snd] in Heq.
      pose proof (registered_in_heap w2 id1 c1 Hok2 Hreg2). lia.
  - intros <-. now rewrite (Connection_found id1 w2 c1 Hok2 Hreg2).
Qed.

(** C9. Constructing a [Connection] with the identity of an instance that
    exists returns that instance and changes nothing: [__init__] finds
    [_counters] and skips its body (it would with any arguments), so the
    counters, the host name, the plugin identity and the destination of
    the instance, like everything else in the process, are as before. *)
Theorem connection_lookup_preserves (ops : list op) (id : ident) (r : ref) :
  let w := run_ops world_init ops in
  dict_get ident_eqb (instances w) id = Some r ->
  Connection id w = (w, r)
  /\ (exists d, nth_error (heap w) r = Some (Some d))
  /\ (forall id', Connection_init r id' w = w).
Proof.
  intros w Hget.
  assert (Hok : world_ok w) by apply run_ops_ok, world_init_ok.
  destruct (proj1 Hok id r Hget) as [d Hd].
  split; [now apply Connection_found | split; [eauto|]].
  intros id'. now apply (Connection_init_skipped r id' w d).
Qed.

Lemma connection_lookup_preserves_witness :
  let id := ("web1", "localhost", 25826, "", "any")%string in
  let w := run_ops world_init
             [OpConnection id; OpRecord O "test" [PyStr "sub1"] [("foo"%string, PyInt 5)]] in
  Connection id w = (w, O)
  /\ (exists d, nth_error (heap w) O = Some (Some d))
  /\ (forall id', Connection_init O id' w = w).
Proof.
  intros id w.
  apply (connection_lookup_preserves
           [OpConnection id; OpRecord O "test" [PyStr "sub1"] [("foo"%string, PyInt 5)]]
           id O).
  vm_compute. reflexivity.
Defined.

(* ===================================================================== *)
(** * [Counter.record]                                                    *)
(* ===================================================================== *)


Lemma float_of_cell_some (t : table) (sp st : string) (v : pyval) :
  floats_only t -> cell t sp st = Some v -> v = PyFloat (float_of_cell (Some v)).
Proof. intros Hf Hc. destruct (Hf sp st v Hc) as [f ->]. reflexivity. Qed.











(** [record] returns normally whatever it is given. *)
Lemma record_never_raises (args : list pyval) (kwargs : list (string * pyval))
      (c : Counter) :
  exists c' r, record args kwargs c = (c', Ok r).
Proof.
  unfold record, swallow_errors, synchronized.
  destruct (binds_self kwargs); [eauto|].
  destruct (record_body args kwargs c) as [c' [a|e]]; eauto.
Qed.


(* ===================================================================== *)
(** * [Counter.snapshot]                                                  *)
(* ===================================================================== *)

Lemma keys_reset_cells (cs : cells) : keys (reset_cells cs) = keys cs.
Proof. unfold keys, reset_cells. rewrite map_map. reflexivity. Qed.

Lemma keys_reset_table (t : table) : keys (reset_table t) = keys t.
Proof. unfold keys, reset_table. rewrite map_map. reflexivity. Qed.

Lemma nodup_app_head {A : Type} (a b : list A) (x : A) :
  NoDup (a ++ x :: b) -> ~ In x a.
Proof.
  intros H Hin. apply NoDup_remove_2 in H. apply H, in_or_app. now left.
Qed.

(** The inner loop: walking the keys of the dictionary while resetting it
    reads every value once, before its reset. *)
Lemma snapshot_inner (cat sp : string) (todo : cells) :
  forall done totals,
    NoDup (keys (done ++ todo)) ->
    fold_left (snapshot_stat cat sp) (keys todo) (totals, reset_cells done ++ todo)
    = (fold_left (fun tot kv => dict_set String.eqb tot (derived_name cat sp (fst kv)) (snd kv))
                 todo totals,
       reset_cells (done ++ todo)).
Proof.
  induction todo as [|[k v] todo IH]; intros done totals Hnd.
  - now rewrite !app_nil_r.
  - cbn [keys map fst fold_left snd]. unfold snapshot_stat at 2, dict_getitem.
    assert (Hout : ~ In k (keys (reset_cells done))).
    { rewrite keys_reset_cells. unfold keys in *. rewrite map_app in Hnd.
      exact (nodup_app_head _ _ _ Hnd). }
    rewrite (dict_get_app_out _ String.eqb_spec) by exact Hout.
    rewrite (dict_get_head _ String.eqb_spec).
    rewrite (dict_set_app_out _ String.eqb_spec) by exact Hout.
    rewrite (dict_set_head _ String.eqb_spec).
    specialize (IH (done ++ [(k, v)]) (dict_set String.eqb totals (derived_name cat sp k) v)).
    rewrite <- app_assoc in IH. cbn [app] in IH.
    unfold reset_cells in IH at 1. rewrite map_app in IH. cbn [map fst] in IH.
    rewrite <- app_assoc in IH. cbn [app] in IH.
    apply IH. exact Hnd.
Qed.

Lemma fold_emit_map (cat sp : string) (cs : cells) (totals : list (string * pyval)) :
  fold_left (emit cat) (map (fun kv => (sp, fst kv, snd kv)) cs) totals
  = fold_left (fun tot kv => dict_set String.eqb tot (derived_name cat sp (fst kv)) (snd kv))
              cs totals.
Proof.
  revert totals. induction cs as [|kv cs IH]; intros totals; [reflexivity|].
  cbn [map fold_left]. apply IH.
Qed.

Lemma snapshot_outer (cat : string) (todo : table) :
  forall done totals,
    NoDup (keys (done ++ todo)) ->
    Forall (fun item => NoDup (keys (snd item))) todo ->
    fold_left (snapshot_specific cat) todo (totals, reset_table done ++ todo)
    = (fold_left (emit cat) (all_cells todo) totals, reset_table (done ++ todo)).
Proof.
  induction todo as [|[sp cs] todo IH]; intros done totals Hnd Hin.
  - now rewrite !app_nil_r.
  - inversion Hin as [|? ? Hcs Hin']; subst. cbn [snd] in Hcs.
    cbn [fold_left]. unfold snapshot_specific at 2.
    pose proof (snapshot_inner cat sp cs [] totals Hcs) as Einner.
    change (reset_cells [] ++ cs) with cs in Einner.
    change ([] ++ cs) with cs in Einner. rewrite Einner.
    assert (Hout : ~ In sp (keys (reset_table done))).
    { rewrite keys_reset_table. unfold keys in *. rewrite map_app in Hnd.
      exact (nodup_app_head _ _ _ Hnd). }
    rewrite (dict_set_app_out _ String.eqb_spec) by exact Hout.
    rewrite (dict_set_head _ String.eqb_spec).
    specialize (IH (done ++ [(sp, cs)])
                   (fold_left (fun tot kv => dict_set String.eqb tot
                                 (derived_name cat sp (fst kv)) (snd kv)) cs totals)).
    assert (Eapp : reset_table (done ++ [(sp, cs)]) ++ todo
                   = reset_table done ++ (sp, reset_cells cs) :: todo)
      by (unfold reset_table; rewrite map_app, <- app_assoc; reflexivity).
    rewrite Eapp in IH. rewrite <- app_assoc in IH. cbn [app] in IH.
    rewrite IH by assumption.
    unfold all_cells. cbn [flat_map fst snd]. rewrite fold_left_app, fold_emit_map.
    reflexivity.
Qed.

(** [snapshot] reads every cell into [totals] and resets the table. *)
Lemma snapshot_spec (c : Counter) :
  table_wf (counts c) ->
  snapshot c
  = ({| category := category c; counts := reset_table (counts c) |},
     Ok (fold_left (emit (category c)) (all_cells (counts c)) [])).
Proof.
  intros [Hnd Hin]. unfold snapshot, synchronized. cbn [binds_self existsb].
  pose proof (snapshot_outer (category c) (counts c) [] [] Hnd Hin) as E.
  change (reset_table [] ++ counts c) with (counts c) in E.
  change ([] ++ counts c) with (counts c) in E. rewrite E. reflexivity.
Qed.

Lemma in_all_cells (t : table) (sp st : string) (v : pyval) :
  table_wf t -> (In (sp, st, v) (all_cells t) <-> cell t sp st = Some v).
Proof.
  intros [Hnd Hin]. unfold all_cells, cell. rewrite in_flat_map. split.
  - intros ([sp' cs] & Hitem & Hcell). cbn [fst snd] in Hcell.
    apply in_map_iff in Hcell as ([st' v'] & E & Hkv). cbn [fst snd] in E.
    injection E as -> -> ->.
    rewrite (proj2 (dict_get_in _ String.eqb_spec t sp cs Hnd) Hitem).
    apply (dict_get_in _ String.eqb_spec); [|exact Hkv].
    rewrite Forall_forall in Hin. exact (Hin _ Hitem).
  - destruct (dict_get String.eqb t sp) as [cs|] eqn:E; [|discriminate].
    intros Hget. apply (dict_get_in _ String.eqb_spec _ _ _ Hnd) in E.
    exists (sp, cs). split; [exact E|]. cbn [fst snd].
    apply in_map_iff. exists (st, v). split; [reflexivity|].
    apply (dict_get_in _ String.eqb_spec); [|exact Hget].
    rewrite Forall_forall in Hin. exact (Hin _ E).
Qed.

Lemma keys_fold_emit (cat : string) (l : list (string * string * pyval)) :
  forall tot name,
    In name (keys (fold_left (emit cat) l tot)) <->
    In name (keys tot)
    \/ exists e, In e l /\ name = derived_name cat (fst (fst e)) (snd (fst e)).
Proof.
  induction l as [|e l IH]; intros tot name; cbn [fold_left].
  - split; [now left | intros [H|(e & [] & _)]; exact H].
  - rewrite IH. unfold emit. rewrite (keys_dict_set _ String.eqb_spec).
    destruct (dict_get String.eqb tot _) eqn:E.
    + split.
      * intros [H|(e' & He' & Hn)]; [now left|].
        right. exists e'. split; [now right | exact Hn].
      * intros [H|(e' & [<-|He'] & Hn)]; [now left | |].
        -- left. subst name. eapply (dict_get_some_in _ String.eqb_spec); exact E.
        -- right. exists e'. split; assumption.
    + rewrite in_app_iff. cbn [In]. split.
      * intros [[H|[H|[]]]|(e' & He' & Hn)].
        -- now left.
        -- right. exists e. split; [now left | now symmetry].
        -- right. exists e'. split; [now right | exact Hn].
      * intros [H|(e' & [<-|He'] & Hn)].
        -- left. now left.
        -- left. right. left. now symmetry.
        -- right. exists e'. split; assumption.
Qed.

Lemma get_fold_emit (cat : string) (l : list (string * string * pyval)) :
  forall tot name v,
    dict_get String.eqb (fold_left (emit cat) l tot) name = Some v ->
    dict_get String.eqb tot name = Some v
    \/ exists e, In e l /\ name = derived_name cat (fst (fst e)) (snd (fst e))
                 /\ snd e = v.
Proof.
  induction l as [|e l IH]; intros tot name v; cbn [fold_left]; [now left|].
  intros H. apply IH in H as [H|(e' & He' & Hn & Hv)].
  - unfold emit in H.
    destruct (String.eqb_spec (derived_name cat (fst (fst e)) (snd (fst e))) name)
      as [Heq|Hne].
    + rewrite <- Heq, (dict_get_set_same _ String.eqb_spec) in H.
      injection H as <-. right. exists e. repeat split; [now left | now symmetry].
    + rewrite (dict_get_set_other _ String.eqb_spec) in H by exact Hne. now left.
  - right. exists e'. repeat split; [now right | exact Hn | exact Hv].
Qed.

(** The returned mapping against the cells of the table. *)
Lemma snapshot_totals (c : Counter) :
  table_wf (counts c) ->
  exists totals,
    snapshot c
    = ({| category := category c; counts := reset_table (counts c) |}, Ok totals)
    /\ (forall name,
          In name (keys totals) <->
          exists sp st v, cell (counts c) sp st = Some v
                          /\ name = derived_name (category c) sp st)
    /\ (forall name v,
          dict_get String.eqb totals name = Some v ->
          exists sp st, cell (counts c) sp st = Some v
                        /\ name = derived_name (category c) sp st).
Proof.
  intros Hwf. eexists. split; [apply snapshot_spec, Hwf|]. split.
  - intros name. rewrite keys_fold_emit. cbn [keys map In]. split.
    + intros [[]|([[sp st] v] & He & Hn)]. exists sp, st, v.
      split; [now apply in_all_cells | exact Hn].
    + intros (sp & st & v & Hc & Hn). right. exists (sp, st, v).
      split; [now apply in_all_cells | exact Hn].
  - intros name v H. apply get_fold_emit in H as [H|([[sp st] v'] & He & Hn & Hv)];
      [discriminate|].
    cbn [fst snd] in *. subst v'. exists sp, st.
    split; [now apply in_all_cells | exact Hn].
Qed.

(** C5, as amended. [snapshot] emits an entry for every cell that exists
    in the table, whatever its value: the names of the returned mapping
    are exactly the derived names of the existing cells, each entry
    carries the value of a cell of that name, and every cell is reset.
    So a cell at [0.0] has its name among the keys like any other, and
    the entry of a cell holds the value of that very cell, [0.0]
    included, whenever no other cell has the same derived name. *)
Theorem snapshot_entries (c : Counter) :
  table_wf (counts c) ->
  exists totals,
    snapshot c
    = ({| category := category c; counts := reset_table (counts c) |}, Ok totals)
    /\ (forall name,
          In name (keys totals) <->
          exists sp st v, cell (counts c) sp st = Some v
                          /\ name = derived_name (category c) sp st)
    /\ (forall name v,
          dict_get String.eqb totals name = Some v ->
          exists sp st, cell (counts c) sp st = Some v
                        /\ name = derived_name (category c) sp st)
    /\ (forall sp st v,
          cell (counts c) sp st = Some v ->
          In (derived_name (category c) sp st) (keys totals)
          /\ ((forall sp' st' v',
                 cell (counts c) sp' st' = Some v' ->
                 derived_name (category c) sp' st' = derived_name (category c) sp st ->
                 (sp', st') = (sp, st)) ->
              dict_get String.eqb totals (derived_name (category c) sp st) = Some v)).
Proof.
  intros Hwf. destruct (snapshot_totals c Hwf) as (totals & E & Hkeys & Hvals).
  exists totals. split; [exact E|]. split; [exact Hkeys|]. split; [exact Hvals|].
  intros sp st v Hcell.
  assert (Hin : In (derived_name (category c) sp st) (keys totals)).
  { apply Hkeys. exists sp, st, v. split; [exact Hcell | reflexivity]. }
  split; [exact Hin|]. intros Hinj.
  destruct (dict_get String.eqb totals (derived_name (category c) sp st))
    as [v'|] eqn:Eget.
  - destruct (Hvals _ _ Eget) as (sp' & st' & Hc' & Hn).
    specialize (Hinj sp' st' v' Hc' (eq_sym Hn)). injection Hinj as -> ->.
    congruence.
  - apply (dict_get_none _ String.eqb_spec) in Eget. contradiction.
Qed.

(* ===================================================================== *)
(** * Sequences of [record] followed by [snapshot]                        *)
(* ===================================================================== *)

















(* ===================================================================== *)
(** * Instances                                                           *)
(* ===================================================================== *)


Lemma snapshot_entries_witness :
  let c := fst (snapshot (fst (record [PyStr "sub1"] [("foo"%string, PyInt 2)]
                                      (Counter_init "test")))) in
  exists totals,
    snapshot c
    = ({| category := category c; counts := reset_table (counts c) |}, Ok totals)
    /\ (forall name,
          In name (keys totals) <->
          exists sp st v, cell (counts c) sp st = Some v
                          /\ name = derived_name (category c) sp st)
    /\ (forall name v,
          dict_get String.eqb totals name = Some v ->
          exists sp st, cell (counts c) sp st = Some v
                        /\ name = derived_name (category c) sp st)
    /\ (forall sp st v,
          cell (counts c) sp st = Some v ->
          In (derived_name (category c) sp st) (keys totals)
          /\ ((forall sp' st' v',
                 cell (counts c) sp' st' = Some v' ->
                 derived_name (category c) sp' st' = derived_name (category c) sp st ->
                 (sp', st') = (sp, st)) ->
              dict_get String.eqb totals (derived_name (category c) sp st) = Some v)).
Proof.
  intros c. apply (snapshot_entries c).
  vm_compute. split; repeat constructor; cbn; intuition discriminate.
Defined.

(** Against C5 as stated: after a snapshot the cell holds the default
    [0.0], and the next snapshot still has an entry for it. *)
Lemma snapshot_entries_counterexample :
  let c := fst (snapshot (fst (record [] [("foo"%string, PyInt 2)]
                                      (Counter_init "test")))) in
  cell (counts c) "" "foo" = Some (PyFloat 0)
  /\ snd (snapshot c) = Ok [("test-foo"%string, PyFloat 0)].
Proof. split; vm_compute; reflexivity. Qed.



(** A stat named [self] is a second value for the first parameter of
    the wrapper of [synchronized]: the call raises [TypeError] there, the
    error is swallowed, and nothing is recorded, the other stats of the
    call included. *)
Example record_keyword_self :
  record [] [("foo"%string, PyInt 2); ("self"%string, PyInt 5)] (Counter_init "test")
  = (Counter_init "test", Ok None)
  /\ set_exact [("self"%string, PyInt 5)] (Counter_init "test")
     = (Counter_init "test", Ok None).
Proof. split; reflexivity. Qed.

(** A unicode name outside ASCII passes the string test and then fails
    in [str]: the call is abandoned before anything is added, the
    unqualified cell included. *)
Example record_unicode_aborts :
  record [PyUnicode [233%N]] [("foo"%string, PyInt 1)] (Counter_init "test")
  = (Counter_init "test", Ok None).
Proof. reflexivity. Qed.

Example record_unicode_ascii :
  record [PyUnicode [97%N; 46%N; 98%N]] [("hits"%string, PyInt 1)] (Counter_init "test")
  = ({| category := "test";
        counts := [("a.b"%string, [("hits"%string, PyFloat 1)]);
                   (""%string, [("hits"%string, PyFloat 1)])] |},
     Ok (Some tt)).
Proof. reflexivity. Qed.

(** The sums are sums of doubles: an integer is converted when it is
    added, so that [2^53] and then [1] leave [2^53] in the cell. *)
Example record_sum_rounds :
  let calls := [([], [("foo"%string, PyInt (2 ^ 53))]);
                ([], [("foo"%string, PyInt 1)])] in
  snd (snapshot (record_all calls (Counter_init "test")))
  = Ok [("test-foo"%string, PyFloat (float_of_Z (2 ^ 53)))].
Proof. vm_compute. reflexivity. Qed.

(* ===================================================================== *)
(** * Decoding what the codec encodes                                     *)
(* ===================================================================== *)

Lemma Z_of_byte_of_Z (z : Z) : Z_of_byte (byte_of_Z z) = z mod 256.
Proof.
  unfold Z_of_byte, byte_of_Z. rewrite ascii_of_byte_of_ascii.
  assert (H : 0 <= z mod 256 < 256) by (apply Z.mod_pos_bound; lia).
  rewrite N_ascii_embedding; [apply Z2N.id; lia|].
  change 256%N with (Z.to_N 256). apply Z2N.inj_lt; lia.
Qed.

Lemma be_bytes_2 (z : Z) : be_bytes 2 z = [byte_of_Z (z / 256); byte_of_Z z].
Proof. reflexivity. Qed.

Lemma be_value_2 (z : Z) :
  0 <= z <= 65535 -> be_value [byte_of_Z (z / 256); byte_of_Z z] = z.
Proof.
  intros H. unfold be_value. cbn [fold_left]. rewrite !Z_of_byte_of_Z.
  rewrite (Z.mod_small (z / 256)).
  - pose proof (Z.div_mod z 256). lia.
  - split; [apply Z.div_pos; lia | apply Z.div_lt_upper_bound; lia].
Qed.

Lemma be_value_rev (l : bytes) :
  be_value (rev l) = fold_right (fun x acc => acc * 256 + Z_of_byte x) 0 l.
Proof.
  unfold be_value. rewrite <- (rev_involutive l) at 2.
  now rewrite fold_left_rev_right.
Qed.

Lemma be_value_be_bytes (n : nat) :
  forall z, be_value (be_bytes n z) = z mod 256 ^ Z.of_nat n.
Proof.
  unfold be_bytes. induction n as [|n IH]; intros z.
  - cbn. now rewrite Z.mod_1_r.
  - rewrite be_value_rev in *. cbn [le_bytes fold_right].
    specialize (IH (z / 256)). rewrite be_value_rev in IH. rewrite IH.
    rewrite Z_of_byte_of_Z, Nat2Z.inj_succ, Z.pow_succ_r by lia.
    rewrite (Z.rem_mul_r z 256 (256 ^ Z.of_nat n)) by (try lia; apply Z.pow_pos_nonneg; lia).
    lia.
Qed.

Lemma unpack_q_be_bytes (n : Z) :
  - 2 ^ 63 <= n < 2 ^ 63 -> unpack_q (be_bytes 8 (n mod 2 ^ 64)) = Ok n.
Proof.
  intros H. unfold unpack_q.
  replace (List.length (be_bytes 8 (n mod 2 ^ 64))) with 8%nat
    by (unfold be_bytes; now rewrite length_rev, le_bytes_length).
  cbn [Nat.eqb]. rewrite be_value_be_bytes.
  change (256 ^ Z.of_nat 8) with (2 ^ 64). rewrite Z.mod_mod by lia.
  f_equal. destruct (Z.ltb_spec (n mod 2 ^ 64) (2 ^ 63)) as [Hlt|Hge].
  - destruct (Z.lt_ge_cases n 0) as [Hneg|Hpos].
    + replace (n mod 2 ^ 64) with (n + 2 ^ 64) in Hlt; [lia|].
      apply Z.mod_unique with (q := -1); lia.
    + apply Z.mod_small. lia.
  - destruct (Z.lt_ge_cases n 0) as [Hneg|Hpos].
    + replace (n mod 2 ^ 64) with (n + 2 ^ 64); [lia|].
      apply Z.mod_unique with (q := -1); lia.
    + rewrite Z.mod_small in Hge; lia.
Qed.

Lemma struct_q_int (n : Z) : struct_q (int_result n) = struct_q (PyInt n).
Proof. unfold int_result. destruct ((- 2 ^ 63 <=? n) && (n <=? maxint)); reflexivity. Qed.

(** X1. A time or interval field holds any integer ([int] or [long])
    of 64 signed bits and nothing else, and reads back: 12 bytes, the
    type code, the size 12 and the number. *)
Theorem pack_numeric_roundtrip (c n : Z) :
  In c LONG_INT_CODES ->
  ((exists b, pack (Code c) (int_result n) = Ok b) <-> - 2 ^ 63 <= n < 2 ^ 63)
  /\ (forall b,
        pack (Code c) (int_result n) = Ok b ->
        len b = 12
        /\ unpack_HH (slice 0 4 b) = Ok (c, 12)
        /\ unpack_q (slice 4 12 b) = Ok n).
Proof.
  intros Hc.
  assert (Hrange : 0 <= c <= 65535)
    by (destruct Hc as [<-|[<-|[]]]; cbv; intuition discriminate).
  assert (Hpack : pack (Code c) (int_result n) = pack_numeric c (int_result n))
    by (destruct Hc as [<-|[<-|[]]]; reflexivity).
  rewrite Hpack. unfold pack_numeric. rewrite struct_q_int. unfold struct_q.
  rewrite (struct_H_ok c Hrange), (struct_H_ok 12) by lia. cbn [bind].
  destruct ((- 2 ^ 63 <=? n) && (n <? 2 ^ 63)) eqn:E.
  - apply andb_prop in E as [E1 E2]. apply Z.leb_le in E1. apply Z.ltb_lt in E2.
    cbn [bind].
    split; [split; [intros _; lia | intros _; eauto]|].
    intros b Hb.
    assert (Eb : b = be_bytes 2 c ++ be_bytes 2 12 ++ be_bytes 8 (n mod 2 ^ 64))
      by congruence.
    subst b. clear Hb. rewrite !be_bytes_2. cbn [app].
    split; [|split].
    + unfold len. cbn [List.length]. unfold be_bytes.
      rewrite length_rev, le_bytes_length. reflexivity.
    + unfold slice, unpack_HH. cbn [skipn Nat.sub firstn List.length Nat.eqb].
      now rewrite (be_value_2 c), (be_value_2 12) by lia.
    + unfold slice. cbn [skipn app Nat.sub].
      rewrite <- (firstn_all (be_bytes 8 (n mod 2 ^ 64))) at 1.
      replace (List.length (be_bytes 8 (n mod 2 ^ 64))) with 8%nat
        by (unfold be_bytes; now rewrite length_rev, le_bytes_length).
      rewrite firstn_firstn. cbn [Nat.min]. rewrite firstn_all2
        by (unfold be_bytes; rewrite length_rev, le_bytes_length; lia).
      apply unpack_q_be_bytes. lia.
  - cbn [bind]. split; [|intros b Hb; discriminate Hb].
    split; [intros [b Hb]; discriminate Hb|].
    intros [H1 H2]. apply Z.leb_le in H1. apply Z.ltb_lt in H2.
    rewrite H1, H2 in E. discriminate E.
Qed.

Lemma pack_numeric_roundtrip_witness :
  ((exists b, pack (Code TYPE_TIME) (int_result (-1)) = Ok b)
   <-> - 2 ^ 63 <= -1 < 2 ^ 63)
  /\ (forall b,
        pack (Code TYPE_TIME) (int_result (-1)) = Ok b ->
        len b = 12
        /\ unpack_HH (slice 0 4 b) = Ok (TYPE_TIME, 12)
        /\ unpack_q (slice 4 12 b) = Ok (-1)).
Proof. apply (pack_numeric_roundtrip TYPE_TIME (-1)). left. reflexivity. Defined.

Lemma string_of_list_byte_of_string' (s : string) (rest : bytes) :
  string_of_list_byte (firstn (String.length s) (list_byte_of_string s ++ rest)) = s.
Proof.
  rewrite firstn_app.
  assert (L : List.length (list_byte_of_string s) = String.length s).
  { pose proof (list_byte_of_string_len s) as H. unfold len in H. lia. }
  rewrite L, Nat.sub_diag, firstn_O, app_nil_r.
  rewrite <- L, firstn_all. apply string_of_list_byte_of_string.
Qed.

(** X2. A string field holds any byte string of at most 65530 bytes and
    nothing longer, and reads back: the type code, a size that counts
    the whole field, the string, and a final NUL. *)
Theorem pack_string_roundtrip (c : Z) (s : string) :
  In c STRING_CODES ->
  ((exists b, pack (Code c) (PyStr s) = Ok b)
   <-> Z.of_nat (String.length s) <= 65530)
  /\ (forall b,
        pack (Code c) (PyStr s) = Ok b ->
        len b = 5 + Z.of_nat (String.length s)
        /\ unpack_HH (slice 0 4 b) = Ok (c, len b)
        /\ string_of_list_byte (slice 4 (4 + String.length s) b) = s
        /\ nth_error b (4 + String.length s) = Some x00).
Proof.
  intros Hc.
  assert (Hrange : 0 <= c <= 65535)
    by (destruct Hc as [<-|[<-|[<-|[<-|[<-|[]]]]]]; cbv; intuition discriminate).
  assert (Hpack : pack (Code c) (PyStr s) = pack_string c (PyStr s))
    by (destruct Hc as [<-|[<-|[<-|[<-|[<-|[]]]]]]; reflexivity).
  rewrite Hpack. unfold pack_string. rewrite (struct_H_ok c Hrange). cbn [bind].
  unfold struct_H.
  destruct (Z.leb_spec 0 (5 + Z.of_nat (String.length s))) as [_|]; [|lia].
  destruct (Z.leb_spec (5 + Z.of_nat (String.length s)) 65535) as [Hle|Hgt];
    cbn [andb bind].
  - split; [split; [intros _; lia | intros _; eauto]|].
    intros b Hb.
    assert (Eb : b = (be_bytes 2 c ++ be_bytes 2 (5 + Z.of_nat (String.length s)))
                     ++ list_byte_of_string s ++ [x00]) by congruence.
    subst b. clear Hb. rewrite !be_bytes_2. cbn [app].
    assert (L : len ((byte_of_Z (c / 256) :: byte_of_Z c
                 :: byte_of_Z ((5 + Z.of_nat (String.length s)) / 256)
                 :: byte_of_Z (5 + Z.of_nat (String.length s))
                 :: list_byte_of_string s ++ [x00]))
                = 5 + Z.of_nat (String.length s)).
    { change (len (?a :: ?b :: ?c :: ?d :: ?r)) with (len ([a; b; c; d] ++ r)).
      rewrite !len_app, list_byte_of_string_len.
      change (len [x00]) with 1. unfold len. cbn [List.length]. lia. }
    split; [exact L|]. rewrite L. split; [|split].
    + unfold slice, unpack_HH. cbn [skipn Nat.sub firstn List.length Nat.eqb].
      now rewrite (be_value_2 c), (be_value_2 (5 + Z.of_nat (String.length s))) by lia.
    + unfold slice. cbn [skipn]. rewrite Nat.add_comm, Nat.add_sub.
      apply string_of_list_byte_of_string'.
    + cbn [Nat.add nth_error].
      assert (Ls : List.length (list_byte_of_string s) = String.length s).
      { pose proof (list_byte_of_string_len s) as H. unfold len in H. lia. }
      rewrite nth_error_app2 by lia. now rewrite Ls, Nat.sub_diag.
  - split; [|intros b Hb; discriminate Hb].
    split; [intros [b Hb]; discriminate Hb | intros H; lia].
Qed.

Lemma pack_string_roundtrip_witness :
  let s := "Hello World!"%string in
  ((exists b, pack (Code TYPE_HOST) (PyStr s) = Ok b)
   <-> Z.of_nat (String.length s) <= 65530)
  /\ (forall b,
        pack (Code TYPE_HOST) (PyStr s) = Ok b ->
        len b = 5 + Z.of_nat (String.length s)
        /\ unpack_HH (slice 0 4 b) = Ok (TYPE_HOST, len b)
        /\ string_of_list_byte (slice 4 (4 + String.length s) b) = s
        /\ nth_error b (4 + String.length s) = Some x00).
Proof.
  intros s. apply (pack_string_roundtrip TYPE_HOST s). left. reflexivity.
Defined.

Lemma struct_H_not_assertion (z : Z) : struct_H z <> Raise AssertionError.
Proof. unfold struct_H. destruct (_ && _); discriminate. Qed.

Lemma pack_numeric_not_assertion (c : Z) (v : pyval) :
  pack_numeric c v <> Raise AssertionError.
Proof.
  unfold pack_numeric, struct_q, struct_H, trunc_float.
  destruct (_ && _); [|discriminate]. cbn [bind].
  destruct (_ && _); [|discriminate]. cbn [bind].
  destruct v as [| [|] | z | z | f | s | u]; cbn [bind]; try discriminate;
    try (destruct (_ && _); discriminate).
  destruct (Prim2SF f) as [sg|sg| |sg m e]; cbn [bind]; try discriminate;
    destruct (_ && _); discriminate.
Qed.

Lemma pack_string_not_assertion (c : Z) (v : pyval) :
  pack_string c v <> Raise AssertionError.
Proof.
  unfold pack_string, struct_H. destruct v; try discriminate.
  destruct (_ && _); [|discriminate]. cbn [bind].
  destruct (_ && _); discriminate.
Qed.

(** X3. [pack] with an integer code fails its own assertion exactly for
    the codes it does not know, the values code 6 among them; with a
    known code, whatever goes wrong is an error of the encoding, never
    the assertion. *)
Theorem pack_unknown_code (c : Z) (v : pyval) :
  pack (Code c) v = Raise AssertionError
  <-> ~ In c (LONG_INT_CODES ++ STRING_CODES).
Proof.
  cbn [pack]. unfold pack_code. rewrite in_app_iff. split.
  - intros H [Hin|Hin].
    + assert (E : existsb (Z.eqb c) LONG_INT_CODES = true).
      { apply existsb_exists. exists c. split; [exact Hin | apply Z.eqb_refl]. }
      rewrite E in H. exact (pack_numeric_not_assertion c v H).
    + destruct (existsb (Z.eqb c) LONG_INT_CODES);
        [exact (pack_numeric_not_assertion c v H)|].
      assert (E : existsb (Z.eqb c) STRING_CODES = true).
      { apply existsb_exists. exists c. split; [exact Hin | apply Z.eqb_refl]. }
      rewrite E in H. exact (pack_string_not_assertion c v H).
  - intros H.
    destruct (existsb (Z.eqb c) LONG_INT_CODES) eqn:E1.
    + apply existsb_exists in E1 as (x & Hx & Ex). apply Z.eqb_eq in Ex. subst x.
      exfalso. apply H. now left.
    + destruct (existsb (Z.eqb c) STRING_CODES) eqn:E2; [|reflexivity].
      apply existsb_exists in E2 as (x & Hx & Ex). apply Z.eqb_eq in Ex. subst x.
      exfalso. apply H. now right.
Qed.

(* ===================================================================== *)
(** * More on [messages]                                                  *)
(* ===================================================================== *)

Lemma len_concat_cons (p : bytes) (parts : list bytes) :
  len (List.concat (p :: parts)) = len p + len (List.concat parts).
Proof. cbn [List.concat]. apply len_app. Qed.

Lemma fold_no_emit (start : bytes) (parts : list bytes) :
  forall st,
    curr_len st + len (List.concat parts) <= MAX_PACKET_SIZE ->
    fold_left (messages_step start) parts st
    = {| packets := packets st;
         curr := curr st ++ parts;
         curr_len := curr_len st + len (List.concat parts) |}.
Proof.
  induction parts as [|p parts IH]; intros st H.
  - cbn [fold_left List.concat]. rewrite app_nil_r, len_nil, Z.add_0_r.
    now destruct st.
  - rewrite len_concat_cons in H. pose proof (len_nonneg (List.concat parts)).
    cbn [fold_left]. unfold messages_step at 2.
    destruct (Z.ltb_spec MAX_PACKET_SIZE (curr_len st + len p)); [lia|].
    rewrite IH by (cbn [curr_len]; lia). cbn [packets curr curr_len].
    rewrite len_concat_cons, <- app_assoc. f_equal. lia.
Qed.

Lemma filter_all_fit (start : bytes) (parts : list bytes) :
  len start + len (List.concat parts) <= MAX_PACKET_SIZE ->
  filter (fun p => len start + len p <=? MAX_PACKET_SIZE) parts = parts.
Proof.
  induction parts as [|p parts IH]; intros H; [reflexivity|].
  rewrite len_concat_cons in H.
  pose proof (len_nonneg (List.concat parts)). pose proof (len_nonneg p).
  cbn [filter]. destruct (Z.leb_spec (len start + len p) MAX_PACKET_SIZE); [|lia].
  f_equal. apply IH. lia.
Qed.

(** X4. When the header and all the encoded fields fit in one packet,
    [messages] returns that one packet, the header followed by every
    field in the order of the map; for an empty map it returns no packet
    at all. *)
Theorem messages_single_packet (now : float) (counts : list (string * pyval))
        (when : pyval) (host pi pn : string) (start : bytes) (parts : list bytes) :
  message_start now when host pi pn = Ok start ->
  mapM (fun nc => pack (Name (fst nc)) (snd nc)) counts = Ok parts ->
  len start + len (List.concat parts) <= MAX_PACKET_SIZE ->
  messages now counts when host pi pn
  = Ok (match counts with
        | [] => []
        | _ :: _ => [start ++ List.concat parts]
        end).
Proof.
  intros Hs Hp Hfit. rewrite messages_unfold, Hs. cbn [bind]. rewrite Hp.
  cbn [bind]. rewrite (filter_all_fit start parts Hfit). f_equal.
  destruct counts as [|nc counts].
  - cbn [mapM] in Hp. injection Hp as <-. reflexivity.
  - cbn [mapM] in Hp. bind_inv Hp. injection Hp as <-.
    unfold pack_parts. rewrite fold_no_emit by (cbn [curr_len]; exact Hfit).
    cbn [packets curr app List.concat]. reflexivity.
Qed.

Lemma messages_single_packet_witness :
  messages 0%float [("foo"%string, PyInt 6); ("bar"%string, PyInt 7)]
           (PyInt 1) "localhost" "" "any"
  = Ok [ value_or [] (message_start 0%float (PyInt 1) "localhost" "" "any")
         ++ List.concat
              (value_or []
                 (mapM (fun nc => pack (Name (fst nc)) (snd nc))
                       [("foo"%string, PyInt 6); ("bar"%string, PyInt 7)])) ].
Proof.
  apply (messages_single_packet 0%float
           [("foo"%string, PyInt 6); ("bar"%string, PyInt 7)]
           (PyInt 1) "localhost" "" "any").
  - vm_compute. reflexivity.
  - vm_compute. reflexivity.
  - vm_compute. intros H. discriminate H.
Defined.

Lemma mapM_ok_iff {A B : Type} (f : A -> result B) (l : list A) :
  (exists bs, mapM f l = Ok bs) <-> Forall (fun a => exists b, f a = Ok b) l.
Proof.
  split; [|apply mapM_ok].
  induction l as [|a l IH]; intros [bs H]; [constructor|].
  cbn [mapM] in H. bind_inv H. constructor; eauto.
Qed.

(** X5. [messages] returns packets exactly when the header and every
    single stat can be encoded: one stat that cannot (a value that is no
    number, a name too long for its size field) makes the whole call
    raise, and nothing is returned for the other stats. *)
Theorem messages_returns_iff (now : float) (counts : list (string * pyval))
        (when : pyval) (host pi pn : string) :
  (exists pkts, messages now counts when host pi pn = Ok pkts)
  <-> (exists start, message_start now when host pi pn = Ok start)
      /\ Forall (fun nc => exists p, pack (Name (fst nc)) (snd nc) = Ok p) counts.
Proof.
  rewrite messages_unfold, <- mapM_ok_iff. split.
  - intros [pkts H]. bind_inv H. split; eauto.
  - intros [[start Hs] [parts Hp]]. rewrite Hs. cbn [bind]. rewrite Hp.
    cbn [bind]. eauto.
Qed.

(* ===================================================================== *)
(** * The packets pass the validator of the test suite                    *)
(* ===================================================================== *)

Lemma unpack_header (c size : Z) (tail : bytes) :
  0 <= c <= 65535 -> 0 <= size <= 65535 ->
  unpack_HH (slice 0 4 (be_bytes 2 c ++ be_bytes 2 size ++ tail)) = Ok (c, size).
Proof.
  intros Hc Hs. rewrite !be_bytes_2. unfold slice, unpack_HH.
  cbn [app skipn Nat.sub firstn List.length Nat.eqb].
  now rewrite (be_value_2 c), (be_value_2 size).
Qed.

Lemma codes_in_range (c : Z) :
  In c (LONG_INT_CODES ++ STRING_CODES ++ [TYPE_VALUES]) -> 0 <= c <= 65535.
Proof.
  cbn. intros H. repeat (destruct H as [<-|H]; [cbv; intuition discriminate|]).
  contradiction.
Qed.

Lemma field_len (f : bytes) (c : Z) : field f c -> 4 <= len f <= 65535.
Proof.
  intros [c' p Hc Hp | c' s Hc Hs | p Hp];
    rewrite !len_app, ?be_bytes_len, ?list_byte_of_string_len.
  - unfold len. rewrite Hp. lia.
  - change (len [x00]) with 1. lia.
  - change (len [byte_of_Z VALUE_GAUGE]) with 1. unfold len. rewrite Hp. lia.
Qed.

Ltac explode8 p Hp :=
  do 8 (destruct p as [|? p]; [discriminate Hp|]);
  destruct p; [|discriminate Hp].

(** A field at the head of the unread bytes passes one round of the
    validator, which then knows its type code and its size. *)
Lemma check_field_ok (f : bytes) (c : Z) (rest : bytes) :
  field f c -> check_field (f ++ rest) = Ok (c, len f).
Proof.
  intros Hf. pose proof (field_len f c Hf) as Hlen.
  assert (Hlen' : len f <= len (f ++ rest))
    by (rewrite len_app; pose proof (len_nonneg rest); lia).
  unfold check_field.
  destruct Hf as [c p Hc Hp | c s Hc Hs | p Hp].
  - assert (L : len (be_bytes 2 c ++ be_bytes 2 12 ++ p) = 12).
    { rewrite !len_app, !be_bytes_len. unfold len. rewrite Hp. reflexivity. }
    rewrite L in *. rewrite <- !app_assoc.
    rewrite unpack_header by (try lia; apply codes_in_range, in_or_app; now left).
    cbn [bind].
    destruct (Z.leb_spec 12 (len (be_bytes 2 c ++ be_bytes 2 12 ++ p ++ rest)));
      [|rewrite !app_assoc in *; lia].
    explode8 p Hp.
    destruct Hc as [<-|[<-|[]]]; reflexivity.
  - set (n := Z.of_nat (String.length s)) in *.
    assert (L : len ((be_bytes 2 c ++ be_bytes 2 (5 + n))
                     ++ list_byte_of_string s ++ [x00]) = 5 + n).
    { rewrite !len_app, !be_bytes_len, list_byte_of_string_len.
      fold n. change (len [x00]) with 1. lia. }
    rewrite L in *.
    replace (((be_bytes 2 c ++ be_bytes 2 (5 + n)) ++ list_byte_of_string s ++ [x00])
             ++ rest)
      with (be_bytes 2 c ++ be_bytes 2 (5 + n)
            ++ (list_byte_of_string s ++ [x00] ++ rest))
      in * by (now rewrite <- !app_assoc).
    rewrite unpack_header
      by (try lia; apply codes_in_range, in_or_app; right; apply in_or_app; now left).
    cbn [bind].
    destruct (Z.ltb_spec 0 (5 + n)); [|lia]. cbn [negb].
    destruct (Z.leb_spec (5 + n) (len (be_bytes 2 c ++ be_bytes 2 (5 + n)
               ++ list_byte_of_string s ++ [x00] ++ rest))); [|lia].
    cbn [negb].
    assert (Hnth : nth_error (be_bytes 2 c ++ be_bytes 2 (5 + n)
                     ++ list_byte_of_string s ++ [x00] ++ rest)
                     (Z.to_nat (5 + n - 1)) = Some x00).
    { rewrite !be_bytes_2. cbn [app].
      replace (Z.to_nat (5 + n - 1)) with (4 + String.length s)%nat by (subst n; lia).
      cbn [Nat.add nth_error].
      assert (Ls : List.length (list_byte_of_string s) = String.length s).
      { pose proof (list_byte_of_string_len s) as H1. unfold len in H1. lia. }
      rewrite nth_error_app2 by lia. now rewrite Ls, Nat.sub_diag. }
    rewrite Hnth.
    destruct (Z.ltb_spec (5 + n - 4) 0); [lia|].
    destruct Hc as [<-|[<-|[<-|[<-|[<-|[]]]]]]; reflexivity.
  - assert (L : len ((be_bytes 2 TYPE_VALUES ++ be_bytes 2 15 ++ be_bytes 2 1)
                     ++ [byte_of_Z VALUE_GAUGE] ++ p) = 15).
    { rewrite !len_app, !be_bytes_len. unfold len. cbn [List.length].
      rewrite Hp. reflexivity. }
    rewrite L in *.
    destruct (Z.leb_spec 15 (len (((be_bytes 2 TYPE_VALUES ++ be_bytes 2 15
               ++ be_bytes 2 1) ++ [byte_of_Z VALUE_GAUGE] ++ p) ++ rest)))
      as [Hle|]; [|lia].
    explode8 p Hp. cbn [app] in *.
    unfold slice at 1, unpack_HH.
    cbn [be_bytes le_bytes rev app skipn Nat.sub firstn List.length Nat.eqb bind].
    cbn [be_bytes le_bytes rev app] in Hle.
    change (be_value [byte_of_Z (15 / 256); byte_of_Z 15]) with 15.
    change (be_value [byte_of_Z (TYPE_VALUES / 256); byte_of_Z TYPE_VALUES])
      with TYPE_VALUES.
    apply Z.leb_le in Hle. rewrite Hle.
    reflexivity.
Qed.

Lemma fields_of_nil : fields_of [] [].
Proof. exists []. repeat split. constructor. Qed.

Lemma fields_of_one (f : bytes) (c : Z) : field f c -> fields_of f [c].
Proof.
  intros H. exists [(f, c)]. cbn. rewrite app_nil_r.
  repeat split. repeat constructor. exact H.
Qed.

Lemma fields_of_app (a b : bytes) (ca cb : list Z) :
  fields_of a ca -> fields_of b cb -> fields_of (a ++ b) (ca ++ cb).
Proof.
  intros (fa & -> & Ha & <-) (fb & -> & Hb & <-). exists (fa ++ fb).
  rewrite !map_app, concat_app. repeat split. now apply Forall_app.
Qed.

(** The validator reads a sequence of fields to its end and has then
    seen the type code of each. *)
Lemma check_fields_all (fs : list (bytes * Z)) :
  Forall (fun fc => field (fst fc) (snd fc)) fs ->
  forall fuel codes,
    (List.length (List.concat (map fst fs)) <= fuel)%nat ->
    check_fields fuel (List.concat (map fst fs)) codes
    = Some (Ok (fold_left (fun d c => dict_set Z.eqb d c 1) (map snd fs) codes)).
Proof.
  induction 1 as [|[f c] fs Hf Hfs IH]; intros fuel codes Hfuel.
  - destruct fuel; reflexivity.
  - cbn [map fst snd List.concat fold_left] in *.
    pose proof (field_len f c Hf) as Hlen. unfold len in Hlen.
    rewrite length_app in Hfuel.
    destruct (f ++ List.concat (map fst fs)) as [|x r] eqn:E.
    { apply (f_equal (@List.length byte)) in E. rewrite length_app in E.
      cbn in E. lia. }
    destruct fuel as [|fuel]; [lia|].
    cbn [check_fields]. rewrite <- E. rewrite (check_field_ok f c _ Hf).
    unfold len. rewrite Nat2Z.id, skipn_app, skipn_all, Nat.sub_diag.
    cbn [skipn app]. apply IH. lia.
Qed.

Lemma check_fields_of (s : bytes) (codes : list Z) :
  fields_of s codes ->
  check_fields (List.length s) s []
  = Some (Ok (fold_left (fun d c => dict_set Z.eqb d c 1) codes [])).
Proof.
  intros (fs & -> & Hfs & <-). now apply check_fields_all.
Qed.

Lemma pack_string_field (c : Z) (s : string) (b : bytes) :
  In c STRING_CODES -> pack_string c (PyStr s) = Ok b -> field b c.
Proof.
  intros Hc H. unfold pack_string in H. bind_inv H.
  assert (Eb : b = (x ++ x0) ++ list_byte_of_string s ++ [x00]) by congruence.
  subst b. clear H. unfold struct_H in E, E0.
  destruct ((0 <=? c) && (c <=? 65535)); [|discriminate].
  destruct ((0 <=? 5 + Z.of_nat (String.length s))
            && (5 + Z.of_nat (String.length s) <=? 65535)) eqn:Hs; [|discriminate].
  assert (Ex : x = be_bytes 2 c) by congruence.
  assert (Ex0 : x0 = be_bytes 2 (5 + Z.of_nat (String.length s))) by congruence.
  subst x x0. apply andb_prop in Hs as [_ Hs]. apply Z.leb_le in Hs.
  apply field_string; [exact Hc | lia].
Qed.

Lemma pack_numeric_field (c : Z) (v : pyval) (b : bytes) :
  In c LONG_INT_CODES -> pack_numeric c v = Ok b -> field b c.
Proof.
  intros Hc H. unfold pack_numeric in H. bind_inv H.
  assert (Eb : b = x ++ x0 ++ x1) by congruence. subst b. clear H.
  pose proof (struct_q_len _ _ E1) as L. unfold len in L.
  unfold struct_H in E, E0.
  destruct ((0 <=? c) && (c <=? 65535)); [|discriminate].
  cbn in E0.
  assert (Ex : x = be_bytes 2 c) by congruence.
  assert (Ex0 : x0 = be_bytes 2 12) by (injection E0 as <-; reflexivity).
  subst x x0. apply field_numeric; [exact Hc | lia].
Qed.

Lemma message_start_fields (now : float) (when : pyval) (host pi pn : string)
      (start : bytes) :
  message_start now when host pi pn = Ok start ->
  fields_of start [TYPE_HOST; TYPE_TIME; TYPE_PLUGIN; TYPE_PLUGIN_INSTANCE;
                   TYPE_TYPE; TYPE_INTERVAL].
Proof.
  unfold message_start. intros H. bind_inv H.
  assert (Es : start = x ++ x0 ++ x1 ++ x2 ++ x3 ++ x4 ++ [])
    by (cbn [List.concat] in H; congruence).
  subst start. clear H.
  change (pack (Code TYPE_HOST) (PyStr host))
    with (pack_string TYPE_HOST (PyStr host)) in E.
  change (pack (Code TYPE_PLUGIN) (PyStr pn))
    with (pack_string TYPE_PLUGIN (PyStr pn)) in E1.
  change (pack (Code TYPE_PLUGIN_INSTANCE) (PyStr pi))
    with (pack_string TYPE_PLUGIN_INSTANCE (PyStr pi)) in E2.
  change (pack (Code TYPE_TYPE) (PyStr PLUGIN_TYPE))
    with (pack_string TYPE_TYPE (PyStr PLUGIN_TYPE)) in E3.
  match type of E0 with pack _ ?w = _ =>
    change (pack (Code TYPE_TIME) w) with (pack_numeric TYPE_TIME w) in E0 end.
  change (pack (Code TYPE_INTERVAL) (PyInt SEND_INTERVAL))
    with (pack_numeric TYPE_INTERVAL (PyInt SEND_INTERVAL)) in E4.
  apply pack_string_field in E; [|cbn; tauto].
  apply pack_string_field in E1; [|cbn; tauto].
  apply pack_string_field in E2; [|cbn; tauto].
  apply pack_string_field in E3; [|cbn; tauto].
  apply pack_numeric_field in E0; [|cbn; tauto].
  apply pack_numeric_field in E4; [|cbn; tauto].
  repeat (apply (fields_of_app _ _ [_]); [now apply fields_of_one|]).
  apply fields_of_nil.
Qed.

Lemma pack_value_fields (name : string) (v : pyval) (p : bytes) :
  pack_value name v = Ok p -> fields_of p [TYPE_TYPE_INSTANCE; TYPE_VALUES].
Proof.
  unfold pack_value. intros H. bind_inv H.
  assert (Ep : p = x ++ x0 ++ x1 ++ []) by (cbn [List.concat] in H; congruence).
  subst p. clear H.
  change (pack_code TYPE_TYPE_INSTANCE (PyStr name))
    with (pack_string TYPE_TYPE_INSTANCE (PyStr name)) in E.
  apply pack_string_field in E; [|cbn; tauto].
  bind_inv E0. bind_inv E1.
  pose proof (struct_d_le_len _ _ E6) as L. unfold len in L.
  assert (Ex0 : x0 = be_bytes 2 TYPE_VALUES ++ be_bytes 2 15 ++ be_bytes 2 1).
  { cbv in E2, E3, E4. injection E2 as <-. injection E3 as <-.
    injection E4 as <-. injection E0 as <-. reflexivity. }
  assert (Ex1 : x1 = [byte_of_Z VALUE_GAUGE] ++ x6).
  { cbv in E5. injection E5 as <-. injection E1 as <-. reflexivity. }
  subst x0 x1. rewrite app_nil_r.
  apply (fields_of_app _ _ [_] [_]); [now apply fields_of_one|].
  apply fields_of_one, field_values. lia.
Qed.

Lemma mapM_in {A B : Type} (f : A -> result B) (l : list A) :
  forall bs, mapM f l = Ok bs ->
  forall b, In b bs -> exists a, In a l /\ f a = Ok b.
Proof.
  induction l as [|a l IH]; intros bs H b Hb; cbn [mapM] in H.
  - injection H as <-. contradiction.
  - bind_inv H. injection H as <-. destruct Hb as [<-|Hb].
    + exists a. split; [now left | assumption].
    + destruct (IH _ E0 b Hb) as (a' & Ha' & Hf). exists a'. split; [now right | exact Hf].
Qed.

Lemma group_fields (g : list bytes) :
  Forall (fun p => fields_of p [TYPE_TYPE_INSTANCE; TYPE_VALUES]) g ->
  fields_of (List.concat g)
            (List.concat (map (fun _ => [TYPE_TYPE_INSTANCE; TYPE_VALUES]) g)).
Proof.
  induction 1 as [|p g Hp Hg IH]; [apply fields_of_nil|].
  cbn [List.concat map]. now apply fields_of_app.
Qed.

Lemma packet_codes_seen {A : Type} (g : list A) :
  g <> [] ->
  fold_left (fun d c => dict_set Z.eqb d c 1) (packet_codes g) [] = all_type_codes.
Proof.
  intros Hg. unfold packet_codes. rewrite fold_left_app.
  destruct g as [|a g]; [contradiction|]. clear Hg.
  cbn [map List.concat]. rewrite fold_left_app.
  change (fold_left (fun d c => dict_set Z.eqb d c 1)
            [TYPE_TYPE_INSTANCE; TYPE_VALUES]
            (fold_left (fun d c => dict_set Z.eqb d c 1)
               [TYPE_HOST; TYPE_TIME; TYPE_PLUGIN; TYPE_PLUGIN_INSTANCE;
                TYPE_TYPE; TYPE_INTERVAL] []))
    with all_type_codes.
  induction g as [|b g IH]; [reflexivity|].
  cbn [map List.concat]. rewrite fold_left_app. exact IH.
Qed.

(** X6. Every packet that [messages] returns passes the validator of the
    test suite, [assertValidPacket(8, packet)]: it is a sequence of
    well-formed fields, read to the last byte, and it carries all eight
    type codes. *)
Theorem messages_valid_packets (now : float) (counts : list (string * pyval))
        (when : pyval) (host pi pn : string) (pkts : list bytes) :
  messages now counts when host pi pn = Ok pkts ->
  Forall (fun p => assertValidPacket 8 p = Some (Ok tt)) pkts.
Proof.
  intros H. rewrite messages_unfold in H. bind_inv H.
  assert (Epk : pkts = pack_parts x
                  (filter (fun p => len x + len p <=? MAX_PACKET_SIZE) x0))
    by congruence.
  subst pkts. clear H.
  destruct (pack_parts_groups x _ (forallb_filter _ x0))
    as (groups & -> & Ecat & Hne & _ & _).
  apply Forall_map. rewrite Forall_forall in *. intros g Hg.
  assert (Hparts : Forall (fun p => fields_of p [TYPE_TYPE_INSTANCE; TYPE_VALUES]) g).
  { apply Forall_forall. intros p Hp.
    assert (Hin : In p x0).
    { assert (Hc : In p (List.concat groups))
        by (apply in_concat; exists g; split; assumption).
      rewrite Ecat in Hc. now apply filter_In in Hc as [Hc _]. }
    destruct (mapM_in _ _ _ E0 p Hin) as ([n v] & _ & Hpack).
    exact (pack_value_fields n v p Hpack). }
  assert (Hpacket : fields_of (packet_of x g) (packet_codes g)).
  { unfold packet_of, packet_codes. apply fields_of_app.
    - exact (message_start_fields _ _ _ _ _ _ E).
    - now apply group_fields. }
  unfold assertValidPacket. rewrite (check_fields_of _ _ Hpacket).
  rewrite (packet_codes_seen g (Hne g Hg)). reflexivity.
Qed.

Lemma messages_valid_packets_witness :
  Forall (fun p => assertValidPacket 8 p = Some (Ok tt))
    (value_or []
       (messages 0%float [("foo"%string, PyInt 6); ("bar"%string, PyFloat 7)]
                 (PyInt 1) "localhost" "" "any")).
Proof.
  apply (messages_valid_packets 0%float
           [("foo"%string, PyInt 6); ("bar"%string, PyFloat 7)]
           (PyInt 1) "localhost" "" "any").
  vm_compute. reflexivity.
Defined.

(* ===================================================================== *)
(** * Names                                                               *)
(* ===================================================================== *)

Lemma append_empty_r (s : string) : (s ++ EmptyString)%string = s.
Proof. induction s as [|c s IH]; cbn [append]; [reflexivity | now rewrite IH]. Qed.

Lemma append_snoc (u v : string) (c : ascii) :
  (u ++ String c (v ++ String c EmptyString))%string
  = ((u ++ String c v) ++ String c EmptyString)%string.
Proof. induction u as [|a u IH]; cbn [append]; [reflexivity | now rewrite IH]. Qed.

Lemma re_sub_runs_alnum (u r : string) (b : bool) :
  all_alnum u = true -> u <> EmptyString ->
  re_sub_runs b (u ++ r) = (u ++ re_sub_runs false r)%string.
Proof.
  revert b. induction u as [|c u IH]; intros b Hu Hne; [contradiction|].
  cbn [all_alnum string_forall] in Hu. apply andb_prop in Hu as [Hc Hu].
  cbn [append re_sub_runs]. rewrite Hc. f_equal.
  destruct u as [|c' u']; [reflexivity|]. apply IH; [exact Hu | discriminate].
Qed.

Lemma re_sub_runs_junk_true (j r : string) :
  no_alnum j = true -> re_sub_runs true (j ++ r) = re_sub_runs true r.
Proof.
  induction j as [|c j IH]; intros Hj; [reflexivity|].
  cbn [no_alnum string_forall] in Hj. apply andb_prop in Hj as [Hc Hj].
  apply negb_true_iff in Hc. cbn [append re_sub_runs]. rewrite Hc. now apply IH.
Qed.

Lemma re_sub_runs_junk_false (j r : string) :
  no_alnum j = true -> j <> EmptyString ->
  re_sub_runs false (j ++ r) = String underscore (re_sub_runs true r).
Proof.
  destruct j as [|c j]; intros Hj Hne; [contradiction|].
  cbn [no_alnum string_forall] in Hj. apply andb_prop in Hj as [Hc Hj].
  apply negb_true_iff in Hc. cbn [append re_sub_runs]. rewrite Hc. f_equal.
  now apply re_sub_runs_junk_true.
Qed.

Lemma re_sub_runs_junk_end (j : string) (b : bool) :
  no_alnum j = true ->
  re_sub_runs b j = EmptyString \/ re_sub_runs b j = String underscore EmptyString.
Proof.
  intros Hj. destruct j as [|c j]; [now left|].
  destruct b.
  - left. rewrite <- (append_empty_r (String c j)) at 1.
    now rewrite re_sub_runs_junk_true.
  - right. rewrite <- (append_empty_r (String c j)) at 1.
    rewrite re_sub_runs_junk_false by (try exact Hj; discriminate). reflexivity.
Qed.

Lemma clean_tail_alnum (u : string) : all_alnum u = true -> clean_tail u = true.
Proof.
  induction u as [|c u IH]; [reflexivity|]. cbn [all_alnum string_forall clean_tail].
  intros H. apply andb_prop in H as [Hc Hu]. rewrite Hc. now apply IH.
Qed.

Lemma clean_tail_join (u v : string) :
  all_alnum u = true -> all_alnum v = true -> v <> EmptyString ->
  clean_tail (u ++ String underscore v) = true.
Proof.
  intros Hu Hv Hne. induction u as [|c u IH].
  - cbn [append clean_tail]. destruct v as [|c v]; [contradiction|].
    cbn [all_alnum string_forall] in Hv. apply andb_prop in Hv as [Hc Hv'].
    change (is_alnum underscore) with false. cbn [andb]. rewrite Hc.
    rewrite Ascii.eqb_refl. cbn [andb clean_tail]. rewrite Hc.
    now apply clean_tail_alnum.
  - cbn [all_alnum string_forall] in Hu. apply andb_prop in Hu as [Hc Hu].
    cbn [append clean_tail]. rewrite Hc. now apply IH.
Qed.

Lemma rstrip_snoc (c : ascii) (w : string) :
  rstrip c (w ++ String c EmptyString) = rstrip c w.
Proof.
  induction w as [|a w IH]; cbn [append rstrip].
  - now rewrite Ascii.eqb_refl.
  - now rewrite IH.
Qed.

(** X7. Characters outside [a-zA-Z0-9] around and between two
    alphanumeric words leave the two words joined by one underscore:
    runs collapse, and leading and trailing runs disappear. *)
Theorem sanitize_words (j1 u j2 v j3 : string) :
  all_alnum u = true -> u <> EmptyString ->
  all_alnum v = true -> v <> EmptyString ->
  no_alnum j1 = true -> no_alnum j2 = true -> j2 <> EmptyString ->
  no_alnum j3 = true ->
  sanitize (j1 ++ u ++ j2 ++ v ++ j3) = (u ++ String underscore v)%string.
Proof.
  intros Hu Unz Hv Vnz H1 H2 J2nz H3.
  assert (Hmid : re_sub_runs false (u ++ j2 ++ v ++ j3)
                 = (u ++ String underscore (v ++ re_sub_runs false j3))%string).
  { rewrite re_sub_runs_alnum by assumption.
    rewrite re_sub_runs_junk_false by assumption.
    now rewrite re_sub_runs_alnum by assumption. }
  assert (Hhead : forall r, lstrip underscore (u ++ r) = (u ++ r)%string).
  { intros r. destruct u as [|c u]; [contradiction|].
    cbn [all_alnum string_forall] in Hu. apply andb_prop in Hu as [Hc _].
    cbn [append lstrip]. now rewrite (alnum_not_underscore c Hc). }
  assert (Hleft : lstrip underscore (re_sub_runs false (j1 ++ u ++ j2 ++ v ++ j3))
                  = (u ++ String underscore (v ++ re_sub_runs false j3))%string).
  { destruct j1 as [|c j1].
    - cbn [append]. rewrite Hmid. apply Hhead.
    - rewrite re_sub_runs_junk_false by (try assumption; discriminate).
      rewrite re_sub_runs_alnum by assumption.
      cbn [lstrip]. rewrite Ascii.eqb_refl.
      rewrite <- (re_sub_runs_alnum u _ false) by assumption.
      rewrite Hmid. apply Hhead. }
  unfold sanitize, strip. rewrite Hleft.
  pose proof (clean_tail_rstrip _ (clean_tail_join u v Hu Hv Vnz)) as Hclean.
  destruct (re_sub_runs_junk_end j3 false H3) as [-> | ->].
  - now rewrite append_empty_r.
  - now rewrite append_snoc, rstrip_snoc.
Qed.

Lemma sanitize_words_witness :
  sanitize ("!! " ++ "foo" ++ "--" ++ "bar" ++ "?") = ("foo" ++ String underscore "bar")%string.
Proof.
  apply (sanitize_words "!! " "foo" "--" "bar" "?");
    first [reflexivity | discriminate].
Defined.

(* ===================================================================== *)
(** * [Counter.set_exact]                                                 *)
(* ===================================================================== *)





(* ===================================================================== *)
(** * The names of a snapshot                                             *)
(* ===================================================================== *)

Lemma alnum_not_dash (c : ascii) : is_alnum c = true -> Ascii.eqb c dash = false.
Proof.
  intros H. destruct (Ascii.eqb_spec c dash) as [->|]; [|reflexivity].
  vm_compute in H. discriminate H.
Qed.

Lemma clean_tail_no_dash (s : string) : clean_tail s = true -> no_dash s = true.
Proof.
  induction s as [|c r IH]; [reflexivity|].
  cbn [clean_tail no_dash string_forall]. destruct (is_alnum c) eqn:Hc.
  - intros H. rewrite (alnum_not_dash c Hc). cbn [negb andb]. now apply IH.
  - intros H. apply andb_prop in H as [H Hr]. apply andb_prop in H as [Hu _].
    apply Ascii.eqb_eq in Hu. subst c.
    change (Ascii.eqb underscore dash) with false. cbn [negb andb]. now apply IH.
Qed.

Lemma sanitize_no_dash (s : string) : no_dash (sanitize s) = true.
Proof.
  pose proof (sanitize_sanitized s) as H. unfold sanitized in H.
  destruct (sanitize s) as [|c r]; [reflexivity|].
  apply andb_prop in H as [_ H]. now apply clean_tail_no_dash.
Qed.

(** [replace("--", "-")] walks over a text without dash unchanged. *)
Lemma replace_dashes_no_dash (a r : string) :
  no_dash a = true -> replace_dashes (a ++ r) = (a ++ replace_dashes r)%string.
Proof.
  induction a as [|c a IH]; intros Ha; [reflexivity|].
  cbn [no_dash string_forall] in Ha. apply andb_prop in Ha as [Hc Ha].
  apply negb_true_iff in Hc. change (Ascii.eqb c "-" = false) in Hc.
  specialize (IH Ha). cbn [append].
  destruct (a ++ r)%string as [|c' r'] eqn:E.
  - cbn [replace_dashes]. rewrite <- IH. reflexivity.
  - cbn [replace_dashes]. rewrite Hc. cbn [andb]. now rewrite <- IH.
Qed.

Lemma replace_dashes_id (a : string) : no_dash a = true -> replace_dashes a = a.
Proof.
  intros Ha. rewrite <- (append_empty_r a) at 1.
  rewrite replace_dashes_no_dash by exact Ha. apply append_empty_r.
Qed.

Lemma replace_dashes_cons (c c' : ascii) (r : string) :
  replace_dashes (String c (String c' r))
  = if Ascii.eqb c "-" && Ascii.eqb c' "-"
    then String "-" (replace_dashes r)
    else String c (replace_dashes (String c' r)).
Proof. reflexivity. Qed.

Lemma replace_dashes_single (r : string) :
  no_dash r = true -> replace_dashes (String "-" r) = String "-" r.
Proof.
  intros Hr. destruct r as [|c r]; [reflexivity|].
  pose proof Hr as Hr'. cbn [no_dash string_forall] in Hr'.
  apply andb_prop in Hr' as [Hc _]. apply negb_true_iff in Hc.
  change (Ascii.eqb c "-" = false) in Hc.
  rewrite replace_dashes_cons, Hc, andb_false_r.
  f_equal. now apply (replace_dashes_id (String c r)).
Qed.

(** X9. The name a snapshot gives a cell: the sanitized category and
    stat joined by one dash for the cells without specific name, with
    the sanitized specific name between them otherwise.  A specific name
    without any alphanumeric character sanitizes to the empty string and
    so shares its names with the unqualified cells. *)
Theorem derived_name_shape (cat sp st : string) :
  derived_name cat sp st
  = if String.eqb (sanitize sp) ""
    then (sanitize cat ++ "-" ++ sanitize st)%string
    else (sanitize cat ++ "-" ++ sanitize sp ++ "-" ++ sanitize st)%string.
Proof.
  unfold derived_name. cbn [map String.concat].
  pose proof (sanitize_no_dash cat) as Hc.
  pose proof (sanitize_no_dash sp) as Hsp.
  pose proof (sanitize_no_dash st) as Hst.
  rewrite replace_dashes_no_dash by exact Hc. f_equal.
  destruct (sanitize sp) as [|c r] eqn:E.
  - cbn [String.eqb append replace_dashes]. cbn [Ascii.eqb Bool.eqb andb].
    now rewrite replace_dashes_id.
  - cbn [String.eqb].
    change ("-" ++ String c r ++ "-" ++ sanitize st)%string
      with (String "-" (String c r ++ String "-" (sanitize st)))%string.
    pose proof Hsp as Hsp'. cbn [no_dash string_forall] in Hsp'.
    apply andb_prop in Hsp' as [Hd _]. apply negb_true_iff in Hd.
    change (Ascii.eqb c "-" = false) in Hd.
    cbn [append]. rewrite replace_dashes_cons, Hd, andb_false_r.
    f_equal.
    change (String c (r ++ String "-" (sanitize st)))%string
      with (String c r ++ String "-" (sanitize st))%string.
    rewrite replace_dashes_no_dash by exact Hsp.
    now rewrite replace_dashes_single.
Qed.

(* ===================================================================== *)
(** * The attributes of a connection                                      *)
(* ===================================================================== *)

Lemma Connection_fresh_attrs (id : ident) (w : world) :
  dict_get ident_eqb (instances w) id = None ->
  exists d,
    Connection id w =
    ({| heap := heap w ++ [Some d];
        instances := dict_set ident_eqb (instances w) id (List.length (heap w)) |},
     List.length (heap w))
    /\ attrs_of id d /\ _counters d = [].
Proof.
  intros Hget. destruct id as [[[[h c] p] i] n].
  exists {| _counters := []; _plugin_inst := i; _plugin_name := n;
            _hostname := h; _collectd_addr := (c, p) |}.
  split; [|cbn; auto].
  unfold Connection, Connection_new, object_new. rewrite Hget.
  cbn [heap instances]. unfold Connection_init. cbn [heap instances].
  rewrite nth_error_app2, Nat.sub_diag by lia. cbn [nth_error].
  f_equal. f_equal.
  clear. induction (heap w) as [|x l IH]; cbn; [reflexivity | now rewrite IH].
Qed.

Lemma heap_update_registry (w : world) (self : ref) (d0 d' : conn_dict) :
  registry_ok w -> nth_error (heap w) self = Some (Some d0) ->
  (forall id, attrs_of id d0 -> attrs_of id d') ->
  registry_ok {| heap := heap_set (heap w) self (Some d'); instances := instances w |}.
Proof.
  intros Hreg Hs Hattrs id r d Hget Hnth. cbn [heap instances] in *.
  destruct (Nat.eq_dec self r) as [<-|Hne].
  - rewrite heap_set_same in Hnth by (apply nth_error_Some; congruence).
    injection Hnth as <-. apply Hattrs. exact (Hreg id self d0 Hget Hs).
  - rewrite heap_set_other in Hnth by exact Hne. exact (Hreg id r d Hget Hnth).
Qed.

Lemma Connection_registry (id : ident) (w : world) :
  world_ok w -> registry_ok w -> registry_ok (fst (Connection id w)).
Proof.
  intros Hok Hreg. destruct (dict_get ident_eqb (instances w) id) as [r|] eqn:Hget.
  - now rewrite (Connection_found id w r Hok Hget).
  - destruct (Connection_fresh_attrs id w Hget) as (d & -> & Hd & _). cbn [fst].
    intros id' r' d' H Hnth. cbn [heap instances] in *.
    destruct (ident_eqb_spec id id') as [<-|Hne].
    + rewrite (dict_get_set_same _ ident_eqb_spec) in H. injection H as <-.
      rewrite nth_error_app2, Nat.sub_diag in Hnth by lia. cbn in Hnth.
      injection Hnth as <-. exact Hd.
    + rewrite (dict_get_set_other _ ident_eqb_spec) in H by exact Hne.
      pose proof (registered_in_heap w id' r' Hok H) as Hlt.
      rewrite nth_error_app1 in Hnth by exact Hlt.
      exact (Hreg id' r' d' H Hnth).
Qed.

Lemma getattr_attrs (name : string) (d : conn_dict) (id : ident) :
  attrs_of id d -> attrs_of id (fst (Connection_getattr name d)).
Proof.
  intros H. unfold Connection_getattr.
  destruct (starts_with_underscore name); [exact H|].
  destruct (dict_get String.eqb (_counters d) name); [exact H|].
  destruct id as [[[[h c] p] i] n]. exact H.
Qed.

Lemma run_op_registry (w : world) (o : op) :
  world_ok w -> registry_ok w -> registry_ok (run_op w o).
Proof.
  intros Hok Hreg. destruct o as [id | self name args kwargs | self name kwargs | self];
    cbn [run_op].
  - now apply Connection_registry.
  - unfold on_counter. destruct (class_attribute name); [exact Hreg|].
    destruct (nth_error (heap w) self) as [[d|]|] eqn:Hs; try exact Hreg.
    pose proof (fun id => getattr_attrs name d id) as Hg.
    destruct (Connection_getattr name d) as [d1 [c|e]]; [|exact Hreg].
    destruct (record args kwargs c) as [c' r]. cbn [fst] in *.
    apply (heap_update_registry w self d); assumption.
  - unfold on_counter. destruct (class_attribute name); [exact Hreg|].
    destruct (nth_error (heap w) self) as [[d|]|] eqn:Hs; try exact Hreg.
    pose proof (fun id => getattr_attrs name d id) as Hg.
    destruct (Connection_getattr name d) as [d1 [c|e]]; [|exact Hreg].
    destruct (set_exact kwargs c) as [c' r]. cbn [fst] in *.
    apply (heap_update_registry w self d); assumption.
  - unfold Connection_snapshot.
    destruct (nth_error (heap w) self) as [[d|]|] eqn:Hs; try exact Hreg.
    destruct (snapshot_counters (_counters d)) as [cs snaps]. cbn [fst].
    apply (heap_update_registry w self d); try assumption.
    intros id Hid. destruct id as [[[[h ch] p] i] n]. exact Hid.
Qed.

Lemma world_init_registry : registry_ok world_init.
Proof. intros id r d H. cbn in H. discriminate H. Qed.

Lemma run_ops_registry (ops : list op) :
  forall w, world_ok w -> registry_ok w -> registry_ok (run_ops w ops).
Proof.
  induction ops as [|o ops IH]; intros w Hok Hreg; [exact Hreg|].
  change (registry_ok (run_ops (run_op w o) ops)). apply IH.
  - now apply run_op_ok.
  - now apply run_op_registry.
Qed.

(** X10. Whatever the clients have done so far (connections opened,
    stats recorded or set, snapshots taken), a connection found in the
    registry is initialised and still has the host name, the address of
    the server and the plugin names it was created with. *)
Theorem connection_attributes (ops : list op) (id : ident) (r : ref) :
  dict_get ident_eqb (instances (run_ops world_init ops)) id = Some r ->
  exists d,
    nth_error (heap (run_ops world_init ops)) r = Some (Some d)
    /\ attrs_of id d.
Proof.
  intros Hget.
  pose proof (run_ops_ok ops world_init world_init_ok) as Hok.
  pose proof (run_ops_registry ops world_init world_init_ok) as Hreg.
  destruct (proj1 Hok id r Hget) as [d Hd]. exists d. split; [exact Hd|].
  exact (Hreg world_init_registry id r d Hget Hd).
Qed.

Lemma connection_attributes_witness :
  exists d,
    nth_error (heap (run_ops world_init
                       [OpConnection ("web1", "stats.example.org", 25826, "", "any")%string;
                        OpRecord 0%nat "hits" [] [("ok"%string, PyInt 1)];
                        OpSnapshot 0%nat])) 0%nat
    = Some (Some d)
    /\ attrs_of ("web1", "stats.example.org", 25826, "", "any")%string d.
Proof.
  apply (connection_attributes
           [OpConnection ("web1", "stats.example.org", 25826, "", "any")%string;
            OpRecord 0%nat "hits" [] [("ok"%string, PyInt 1)];
            OpSnapshot 0%nat]).
  vm_compute. reflexivity.
Defined.

(* ===================================================================== *)
(** * [take_snapshots]                                                    *)
(* ===================================================================== *)

Lemma dict_set_not_nil {K V : Type} (eqb : K -> K -> bool) (d : list (K * V))
      (k : K) (v : V) : dict_set eqb d k v <> [].
Proof.
  destruct d as [|[k' v'] d]; cbn; [discriminate|].
  destruct (eqb k' k); discriminate.
Qed.

(** A snapshot resets the cells and keeps them: a counter that has
    recorded something has counts ever after. *)
Lemma snapshot_has_counts (c : Counter) :
  Daemon.has_counts (fst (snapshot c)) = Daemon.has_counts c.
Proof.
  unfold snapshot, synchronized, Daemon.has_counts. cbn [binds_self existsb].
  destruct (counts c) as [|item t] eqn:E.
  - reflexivity.
  - assert (H : forall l st, snd st <> [] ->
                snd (fold_left (snapshot_specific (category c)) l st) <> []).
    { induction l as [|i l IH]; intros st Hst; [exact Hst|].
      cbn [fold_left]. apply IH. unfold snapshot_specific.
      destruct st as [totals tbl]. destruct i as [specific cs].
      destruct (fold_left _ (keys cs) (totals, cs)) as [totals' counts'].
      cbn [snd]. apply dict_set_not_nil. }
    specialize (H (item :: t) ([], item :: t)).
    destruct (fold_left _ (item :: t) ([], item :: t)) as [totals tbl].
    cbn [fst snd counts] in *.
    destruct tbl; [exfalso; apply H; [discriminate | reflexivity] | reflexivity].
Qed.

Lemma snapshot_returns (c : Counter) : exists totals, snd (snapshot c) = Ok totals.
Proof.
  unfold snapshot, synchronized. cbn [binds_self existsb].
  destruct (fold_left _ (counts c) ([], counts c)) as [totals tbl].
  now exists totals.
Qed.

(** [_snapshot] returns one dictionary for each counter with counts, and
    the counters keep their names and stay with or without counts. *)
Lemma snapshot_counters_spec (cs : list (string * Counter)) :
  List.length (snd (snapshot_counters cs))
  = List.length (filter (fun nc => Daemon.has_counts (snd nc)) cs)
  /\ map (fun nc => Daemon.has_counts (snd nc)) (fst (snapshot_counters cs))
     = map (fun nc => Daemon.has_counts (snd nc)) cs.
Proof.
  induction cs as [|[name c] rest [IH1 IH2]]; [split; reflexivity|].
  cbn [snapshot_counters]. destruct (snapshot_counters rest) as [rest' snaps'].
  cbn [fst snd] in *. cbn [filter map snd].
  assert (Hhc : Daemon.has_counts c
                = match counts c with [] => false | _ :: _ => true end)
    by reflexivity.
  destruct (counts c) as [|i t] eqn:E.
  - cbn [fst snd map]. rewrite !Hhc. split; [exact IH1 | now rewrite IH2].
  - pose proof (snapshot_has_counts c) as Hc.
    destruct (snapshot_returns c) as [totals Ht].
    destruct (snapshot c) as [c' r]. cbn [fst snd] in *. subst r.
    cbn [fst snd map List.length]. rewrite Hc, !Hhc. cbn [List.length].
    split; [now rewrite IH1 | now rewrite IH2].
Qed.

Lemma existsb_map_eq {A : Type} (f : A -> bool) (l l' : list A) :
  map f l = map f l' -> existsb f l = existsb f l'.
Proof.
  revert l'. induction l as [|a l IH]; intros [|a' l'] H; try discriminate H.
  - reflexivity.
  - cbn [map] in H. injection H as Ha Hl. cbn [existsb]. now rewrite Ha, (IH l').
Qed.

Lemma filter_nil_existsb {A : Type} (f : A -> bool) (l : list A) :
  List.length (filter f l) = 0%nat <-> existsb f l = false.
Proof.
  induction l as [|a l IH]; cbn [filter existsb]; [tauto|].
  destruct (f a); cbn [orb List.length]; [split; discriminate | exact IH].
Qed.

(** [_snapshot] on one connection: no connection gains or loses the
    property of having data, the registry stays, and the list returned
    is empty exactly when the connection has no data. *)
Lemma Connection_snapshot_data (self : ref) (w : world) :
  (forall r, Daemon.has_data (fst (Connection_snapshot self w)) r = Daemon.has_data w r)
  /\ (snd (Connection_snapshot self w) = [] <-> Daemon.has_data w self = false).
Proof.
  unfold Connection_snapshot, Daemon.has_data.
  destruct (nth_error (heap w) self) as [[d|]|] eqn:Hs;
    try (split; [reflexivity | tauto]).
  destruct (snapshot_counters_spec (_counters d)) as [Hlen Hmap].
  destruct (snapshot_counters (_counters d)) as [cs snaps]. cbn [fst snd] in *.
  split.
  - intros r. cbn [heap]. destruct (Nat.eq_dec self r) as [<-|Hne].
    + rewrite heap_set_same by (apply nth_error_Some; congruence).
      rewrite Hs. cbn [set_counters _counters]. now apply existsb_map_eq.
    + now rewrite heap_set_other by exact Hne.
  - rewrite <- filter_nil_existsb, <- Hlen.
    destruct snaps; cbn [List.length]; split; congruence.
Qed.

Lemma take_snapshot_spec (now : float) (t : Z) (conn : ref) (s : Daemon.state) :
  trunc_float now = Ok t ->
  exists w' stats,
    Daemon.take_snapshot now conn s
    = ({| Daemon.conns := w';
          Daemon.snaps := Daemon.snaps s
                          ++ (if Daemon.has_data (Daemon.conns s) conn
                              then [(int_result t, stats, conn)] else []);
          Daemon.sent := Daemon.sent s |}, Ok tt)
    /\ instances w' = instances (Daemon.conns s)
    /\ (forall r, Daemon.has_data w' r = Daemon.has_data (Daemon.conns s) r).
Proof.
  intros Ht. unfold Daemon.take_snapshot.
  pose proof (Connection_snapshot_instances conn (Daemon.conns s)) as Hinst.
  destruct (Connection_snapshot_data conn (Daemon.conns s)) as [Hdata Hnil].
  destruct (Connection_snapshot conn (Daemon.conns s)) as [w snapshots].
  cbn [fst snd] in *. rewrite Ht.
  destruct snapshots as [|x l].
  - exists w, []. rewrite (proj1 Hnil eq_refl), app_nil_r. auto.
  - exists w, (fold_left Daemon.update (x :: l) []).
    destruct (Daemon.has_data (Daemon.conns s) conn); [auto|].
    discriminate (proj2 Hnil eq_refl).
Qed.

Lemma take_snapshots_loop_spec (now : float) (t : Z) (values : list ref) :
  trunc_float now = Ok t ->
  forall s,
  exists w' new,
    Daemon.take_snapshots_loop now values s
    = ({| Daemon.conns := w'; Daemon.snaps := Daemon.snaps s ++ new;
          Daemon.sent := Daemon.sent s |}, Ok tt)
    /\ instances w' = instances (Daemon.conns s)
    /\ (forall r, Daemon.has_data w' r = Daemon.has_data (Daemon.conns s) r)
    /\ map snd new = filter (Daemon.has_data (Daemon.conns s)) values
    /\ Forall (fun e => fst (fst e) = int_result t) new.
Proof.
  intros Ht. induction values as [|conn rest IH]; intros s.
  - exists (Daemon.conns s), []. rewrite app_nil_r. destruct s. cbn. auto.
  - cbn [Daemon.take_snapshots_loop filter].
    destruct (take_snapshot_spec now t conn s Ht) as (w1 & stats & -> & Hi1 & Hd1).
    match goal with |- context [Daemon.take_snapshots_loop now rest ?s1] =>
      destruct (IH s1) as (w2 & new & -> & Hi2 & Hd2 & Hmap & Htime) end.
    cbn [Daemon.conns Daemon.snaps Daemon.sent] in *.
    exists w2. eexists. split; [rewrite <- app_assoc; reflexivity|].
    split; [congruence|]. split; [intros r; now rewrite Hd2, Hd1|].
    assert (Hf : filter (Daemon.has_data w1) rest
                 = filter (Daemon.has_data (Daemon.conns s)) rest)
      by (apply filter_ext; exact Hd1).
    rewrite map_app, Hmap, Hf.
    destruct (Daemon.has_data (Daemon.conns s) conn).
    + split; [reflexivity|]. constructor; [reflexivity | exact Htime].
    + split; [reflexivity | exact Htime].
Qed.

(** X11. One round of [take_snapshots] puts one entry in the queue for
    each registered connection that has recorded something, in the order
    of the registry and stamped with the whole seconds of the clock, and
    none for the others: a connection without counters, or whose counters
    never recorded anything, is skipped.  Entries already queued stay in
    front, nothing is sent, and the registry is unchanged. *)
Theorem take_snapshots_entries (now : float) (t : Z) (s : Daemon.state) :
  trunc_float now = Ok t ->
  exists w' new,
    Daemon.take_snapshots now s
    = ({| Daemon.conns := w'; Daemon.snaps := Daemon.snaps s ++ new;
          Daemon.sent := Daemon.sent s |}, Ok tt)
    /\ instances w' = instances (Daemon.conns s)
    /\ map snd new
       = filter (Daemon.has_data (Daemon.conns s))
                (map snd (instances (Daemon.conns s)))
    /\ Forall (fun e => fst (fst e) = int_result t) new.
Proof.
  intros Ht. unfold Daemon.take_snapshots.
  destruct (take_snapshots_loop_spec now t (map snd (instances (Daemon.conns s))) Ht s)
    as (w' & new & Hrun & Hinst & _ & Hmap & Htime).
  exists w', new. auto.
Qed.

Lemma take_snapshots_entries_witness :
  exists w' new,
    Daemon.take_snapshots 1.5%float
      {| Daemon.conns :=
           run_ops world_init
             [OpConnection ("web1", "localhost", 25826, "", "any")%string;
              OpConnection ("web2", "localhost", 25826, "", "any")%string;
              OpRecord 1%nat "test" [] [("foo"%string, PyInt 5)]];
         Daemon.snaps := []; Daemon.sent := [] |}
    = ({| Daemon.conns := w'; Daemon.snaps := [] ++ new; Daemon.sent := [] |}, Ok tt)
    /\ instances w'
       = instances
           (run_ops world_init
             [OpConnection ("web1", "localhost", 25826, "", "any")%string;
              OpConnection ("web2", "localhost", 25826, "", "any")%string;
              OpRecord 1%nat "test" [] [("foo"%string, PyInt 5)]])
    /\ map snd new
       = filter (Daemon.has_data
                   (run_ops world_init
                      [OpConnection ("web1", "localhost", 25826, "", "any")%string;
                       OpConnection ("web2", "localhost", 25826, "", "any")%string;
                       OpRecord 1%nat "test" [] [("foo"%string, PyInt 5)]]))
                (map snd
                   (instances
                      (run_ops world_init
                         [OpConnection ("web1", "localhost", 25826, "", "any")%string;
                          OpConnection ("web2", "localhost", 25826, "", "any")%string;
                          OpRecord 1%nat "test" [] [("foo"%string, PyInt 5)]])))
    /\ Forall (fun e => fst (fst e) = int_result 1) new.
Proof.
  apply (take_snapshots_entries 1.5%float 1
           {| Daemon.conns :=
                run_ops world_init
                  [OpConnection ("web1", "localhost", 25826, "", "any")%string;
                   OpConnection ("web2", "localhost", 25826, "", "any")%string;
                   OpRecord 1%nat "test" [] [("foo"%string, PyInt 5)]];
              Daemon.snaps := []; Daemon.sent := [] |}).
  vm_compute. reflexivity.
Defined.

(* ===================================================================== *)
(** * [send_stats]                                                        *)
(* ===================================================================== *)

Lemma messages_sizes (now : float) (counts : list (string * pyval))
      (when : pyval) (host pi pn : string) (pkts : list bytes) :
  messages now counts when host pi pn = Ok pkts ->
  Forall (fun p => len p <= MAX_PACKET_SIZE) pkts.
Proof.
  intros H. rewrite messages_unfold in H. bind_inv H.
  assert (Epk : pkts = pack_parts x
                  (filter (fun p => len x + len p <=? MAX_PACKET_SIZE) x0))
    by congruence.
  subst pkts. clear H.
  destruct (pack_parts_groups x _ (forallb_filter _ x0))
    as (groups & -> & _ & _ & Hb & _).
  apply Forall_map. exact Hb.
Qed.

(** The loop over the packets sends a prefix of them, all of them when
    it ends without exception, and fails with [socket.error] only. *)
Lemma send_messages_spec (sendto_ok : Daemon.datagram -> bool) (addr : string * Z)
      (msgs : list bytes) :
  forall out,
  exists k,
    fst (Daemon.send_messages sendto_ok addr msgs out)
    = out ++ map (fun m => (m, addr)) (firstn k msgs)
    /\ (snd (Daemon.send_messages sendto_ok addr msgs out) = None
        -> firstn k msgs = msgs)
    /\ (snd (Daemon.send_messages sendto_ok addr msgs out) = None
        \/ snd (Daemon.send_messages sendto_ok addr msgs out)
           = Some Daemon.SocketError).
Proof.
  induction msgs as [|m rest IH]; intros out.
  - exists 0%nat. cbn. rewrite app_nil_r. auto.
  - cbn [Daemon.send_messages]. destruct (sendto_ok (m, addr)).
    + destruct (IH (out ++ [(m, addr)])) as (k & Hout & Hall & Hres).
      exists (S k). cbn [firstn map]. rewrite Hout, <- app_assoc.
      split; [reflexivity|]. split; [|exact Hres].
      intros Hnone. now rewrite (Hall Hnone).
    + exists 0%nat. cbn. rewrite app_nil_r.
      split; [reflexivity|]. split; [discriminate | now right].
Qed.

(** X12. One call of [send_stats] never touches the connections and
    takes exactly the oldest entry off the queue, whether or not the
    entry can be encoded and sent; it raises [Empty] exactly when the
    queue is empty and [raise_on_empty] is set, and an empty queue
    changes nothing.  What it hands to the socket is a prefix of the
    packets of [messages] for that entry, built with the attributes of
    the entry's connection: each of at most [MAX_PACKET_SIZE] bytes and
    addressed to the connection's [_collectd_addr]; when the call
    returns normally, all of them have been sent, in order. *)
Theorem send_stats_step (sendto_ok : Daemon.datagram -> bool) (now : float)
        (raise_on_empty : bool) (s : Daemon.state) :
  Daemon.conns (fst (Daemon.send_stats sendto_ok now raise_on_empty s))
  = Daemon.conns s
  /\ Daemon.snaps (fst (Daemon.send_stats sendto_ok now raise_on_empty s))
     = tl (Daemon.snaps s)
  /\ (snd (Daemon.send_stats sendto_ok now raise_on_empty s) = Some Daemon.Empty
      <-> Daemon.snaps s = [] /\ raise_on_empty = true)
  /\ (Daemon.snaps s = []
      -> fst (Daemon.send_stats sendto_ok now raise_on_empty s) = s)
  /\ exists new,
       Daemon.sent (fst (Daemon.send_stats sendto_ok now raise_on_empty s))
       = Daemon.sent s ++ new
       /\ Forall (fun dg => len (fst dg) <= MAX_PACKET_SIZE) new
       /\ (forall when stats conn rest d,
             Daemon.snaps s = (when, stats, conn) :: rest ->
             nth_error (heap (Daemon.conns s)) conn = Some (Some d) ->
             Forall (fun dg => snd dg = _collectd_addr d) new
             /\ (snd (Daemon.send_stats sendto_ok now raise_on_empty s) = None ->
                 exists msgs,
                   messages now stats when (_hostname d) (_plugin_inst d)
                            (_plugin_name d) = Ok msgs
                   /\ new = map (fun m => (m, _collectd_addr d)) msgs)).
Proof.
  unfold Daemon.send_stats. destruct (Daemon.snaps s) as [|[[when stats] conn] rest] eqn:Eq.
  - cbn [fst snd tl]. split; [reflexivity|]. split; [exact Eq|]. split.
    { destruct raise_on_empty; split; auto; try discriminate.
      intros [_ H]; discriminate H. }
    split; [reflexivity|].
    exists []. rewrite app_nil_r. split; [reflexivity|]. split; [constructor|].
    intros ? ? ? ? ? H. discriminate H.
  - destruct (nth_error (heap (Daemon.conns s)) conn) as [[d|]|] eqn:Hd.
    + destruct (messages now stats when (_hostname d) (_plugin_inst d) (_plugin_name d))
        as [msgs|e] eqn:Hm.
      * destruct (send_messages_spec sendto_ok (_collectd_addr d) msgs (Daemon.sent s))
          as (k & Hout & Hall & Hres).
        destruct (Daemon.send_messages sendto_ok (_collectd_addr d) msgs (Daemon.sent s))
          as [out r].
        cbn [fst snd tl Daemon.conns Daemon.snaps Daemon.sent] in *.
        split; [reflexivity|]. split; [reflexivity|]. split.
        { split; [|intros [H _]; discriminate H].
          intros ->. destruct Hres as [H|H]; discriminate H. }
        split; [discriminate|].
        exists (map (fun m => (m, _collectd_addr d)) (firstn k msgs)).
        split; [exact Hout|]. split.
        { apply Forall_map. cbn [fst].
          pose proof (messages_sizes _ _ _ _ _ _ _ Hm) as Hs.
          rewrite Forall_forall in *. intros p Hp. apply Hs.
          rewrite <- (firstn_skipn k msgs). apply in_or_app. now left. }
        intros when' stats' conn' rest' d' Heq Hd'.
        injection Heq as <- <- <- <-. rewrite Hd in Hd'. injection Hd' as <-.
        split; [apply Forall_map, Forall_forall; reflexivity|].
        intros Hnone. exists msgs. split; [exact Hm|]. now rewrite (Hall Hnone).
      * cbn [fst snd tl Daemon.conns Daemon.snaps Daemon.sent].
        split; [reflexivity|]. split; [reflexivity|]. split.
        { split; [discriminate | intros [H _]; discriminate H]. }
        split; [discriminate|].
        exists []. rewrite app_nil_r. split; [reflexivity|]. split; [constructor|].
        intros; split; [constructor | discriminate].
    + cbn [fst snd tl Daemon.conns Daemon.snaps Daemon.sent].
      split; [reflexivity|]. split; [reflexivity|]. split.
      { split; [discriminate | intros [H _]; discriminate H]. }
      split; [discriminate|].
      exists []. rewrite app_nil_r. split; [reflexivity|]. split; [constructor|].
      intros; split; [constructor | discriminate].
    + cbn [fst snd tl Daemon.conns Daemon.snaps Daemon.sent].
      split; [reflexivity|]. split; [reflexivity|]. split.
      { split; [discriminate | intros [H _]; discriminate H]. }
      split; [discriminate|].
      exists []. rewrite app_nil_r. split; [reflexivity|]. split; [constructor|].
      intros; split; [constructor | discriminate].
Qed.

(* ===================================================================== *)
(** * From [record] to the socket                                         *)
(* ===================================================================== *)









(* ===================================================================== *)
(** * More on the edges                                                   *)
(* ===================================================================== *)

Lemma struct_q_trunc (now : float) (t : Z) :
  trunc_float now = Ok t -> struct_q (PyFloat now) = struct_q (int_result t).
Proof.
  intros Ht. rewrite struct_q_int. unfold struct_q. now rewrite Ht.
Qed.

(** X14. A header built without [when] is stamped with the whole
    seconds of the clock: it is the header that [when = int(time.time())]
    gives, which is how [send_stats] stamps the entries of the queue. *)
Theorem message_start_default_time (now : float) (t : Z) (host pi pn : string) :
  trunc_float now = Ok t ->
  message_start now PyNone host pi pn = message_start now (int_result t) host pi pn.
Proof.
  intros Ht. unfold message_start. cbn [py_truthy].
  assert (Hq : pack (Code TYPE_TIME) (PyFloat now)
               = pack (Code TYPE_TIME)
                      (if py_truthy (int_result t) then int_result t else PyFloat now)).
  { destruct (py_truthy (int_result t)); [|reflexivity].
    change (pack_numeric TYPE_TIME (PyFloat now)
            = pack_numeric TYPE_TIME (int_result t)).
    unfold pack_numeric. now rewrite (struct_q_trunc now t Ht). }
  now rewrite Hq.
Qed.

Lemma message_start_default_time_witness :
  message_start 1700000000.75%float PyNone "web1" "" "any"
  = message_start 1700000000.75%float (int_result 1700000000) "web1" "" "any".
Proof.
  apply (message_start_default_time 1700000000.75%float 1700000000).
  vm_compute. reflexivity.
Defined.





(** X16. [__getattr__], which serves the attribute names that the
    normal lookup does not find.  A name that does not start with an
    underscore always yields a counter; the first call creates it, empty
    and with the name for category, every later call finds that same
    counter without changing the connection, and the counters of other
    names are left alone. *)
Theorem getattr_cached (name : string) (d : conn_dict) :
  starts_with_underscore name = false ->
  exists c,
    snd (Connection_getattr name d) = inl c
    /\ dict_get String.eqb (_counters (fst (Connection_getattr name d))) name = Some c
    /\ Connection_getattr name (fst (Connection_getattr name d))
       = (fst (Connection_getattr name d), inl c)
    /\ (dict_get String.eqb (_counters d) name = None -> c = Counter_init name)
    /\ (forall other, other <> name ->
          dict_get String.eqb (_counters (fst (Connection_getattr name d))) other
          = dict_get String.eqb (_counters d) other).
Proof.
  intros Hname. unfold Connection_getattr. rewrite Hname.
  destruct (dict_get String.eqb (_counters d) name) as [c|] eqn:E.
  - exists c. cbn [fst snd]. rewrite ?Hname, ?E.
    split; [reflexivity|]. split; [reflexivity|]. split; [reflexivity|].
    split; [discriminate | reflexivity].
  - exists (Counter_init name). cbn [fst snd _counters]. rewrite ?Hname.
    rewrite !(dict_get_set_same _ String.eqb_spec).
    split; [reflexivity|]. split; [reflexivity|]. split; [reflexivity|].
    split; [reflexivity|].
    intros other Hne. apply (dict_get_set_other _ String.eqb_spec). congruence.
Qed.

Lemma getattr_cached_witness :
  exists c,
    snd (Connection_getattr "test"
           {| _counters := []; _plugin_inst := ""; _plugin_name := "any";
              _hostname := "web1"; _collectd_addr := ("localhost"%string, 25826) |})
    = inl c
    /\ c = Counter_init "test".
Proof.
  destruct (getattr_cached "test"
              {| _counters := []; _plugin_inst := ""; _plugin_name := "any";
                 _hostname := "web1";
                 _collectd_addr := ("localhost"%string, 25826) |} eq_refl)
    as (c & H1 & _ & _ & H2 & _).
  exists c. split; [exact H1 | exact (H2 eq_refl)].
Defined.
